(** * Wasteless front end: the session store and the notification store

    A shallow embedding of the two React context providers of the client
    ([AuthContext.tsx] and [UIContext.tsx]) together with the platform
    functions they call ([JSON.parse], [JSON.stringify], [localStorage],
    [Date.now], [setTimeout]), and the properties of the stores that follow
    from the code. *)

From Stdlib Require Import NArith ZArith Lia List Ascii String DecimalString DecimalZ.
From stdpp Require Import base option list gmap.
From stdpp Require Import sorting.

Set Warnings "-register-all".
Local Open Scope N_scope.

(** ** JavaScript strings

    A JavaScript string is a finite sequence of UTF-16 code units.  A code
    unit is modelled as an [N]; the functions below never build a value
    above [0xFFFF] from values below it. *)

Abbreviation jsstring := (list N).

(** The code units of an ASCII literal of the source. *)
Fixpoint lit (s : string) : jsstring :=
  match s with
  | EmptyString => []
  | String a r => N_of_ascii a :: lit r
  end.

(** [Number.prototype.toString] on an integral time value: plain decimal
    digits, with a leading minus sign for a negative number (time values are
    below [1e21] in magnitude, so the exponent form never applies). *)
Definition Number_toString (z : Z) : jsstring :=
  lit (NilEmpty.string_of_int (Z.to_int z)).

(** ** JSON *)

Module JSON.

(** The values [JSON.parse] can produce.  A number keeps the code units of
    its literal: the conversion to a double is not modelled.  An object
    keeps its properties in the order they were created in. *)
Inductive value : Type :=
| Null
| Bool (b : bool)
| Number (lexeme : jsstring)
| String (s : jsstring)
| Array (elems : list value)
| Object (props : list (jsstring * value)).

Inductive parse_result (A : Type) : Type :=
| Parsed (a : A) (rest : jsstring)
| SyntaxError
| OutOfFuel.
Arguments Parsed {A} a rest.
Arguments SyntaxError {A}.
Arguments OutOfFuel {A}.

(** JSON white space: tab, line feed, carriage return, space. *)
Definition is_ws (c : N) : bool :=
  (c =? 9) || (c =? 10) || (c =? 13) || (c =? 32).

Fixpoint skip_ws (s : jsstring) : jsstring :=
  match s with
  | c :: r => if is_ws c then skip_ws r else s
  | [] => []
  end.

Definition is_digit (c : N) : bool := (48 <=? c) && (c <=? 57).

Definition hexval (c : N) : option N :=
  if (48 <=? c) && (c <=? 57) then Some (c - 48)
  else if (97 <=? c) && (c <=? 102) then Some (c - 87)
  else if (65 <=? c) && (c <=? 70) then Some (c - 55)
  else None.

(** The single-character escapes of a JSON string: the code unit after the
    backslash and the code unit it denotes. *)
Definition unescape (e : N) : option N :=
  if e =? 34 then Some 34          (* quotation mark *)
  else if e =? 92 then Some 92     (* reverse solidus *)
  else if e =? 47 then Some 47     (* solidus *)
  else if e =? 98 then Some 8      (* b: backspace *)
  else if e =? 102 then Some 12    (* f: form feed *)
  else if e =? 110 then Some 10    (* n: line feed *)
  else if e =? 114 then Some 13    (* r: carriage return *)
  else if e =? 116 then Some 9     (* t: tab *)
  else None.

Definition cons_char (c : N) (r : option (jsstring * jsstring))
  : option (jsstring * jsstring) :=
  match r with
  | Some (s, rest) => Some (c :: s, rest)
  | None => None
  end.

(** The characters of a string literal, read after its opening quote, up to
    and including the closing quote. *)
Fixpoint parse_chars (s : jsstring) : option (jsstring * jsstring) :=
  match s with
  | [] => None
  | c :: r =>
      if c =? 34 then Some ([], r)
      else if c =? 92 then
        match r with
        | [] => None
        | e :: r1 =>
            if e =? 117 then
              match r1 with
              | h1 :: h2 :: h3 :: h4 :: r2 =>
                  match hexval h1, hexval h2, hexval h3, hexval h4 with
                  | Some a, Some b, Some c', Some d =>
                      cons_char (((a * 16 + b) * 16 + c') * 16 + d) (parse_chars r2)
                  | _, _, _, _ => None
                  end
              | _ => None
              end
            else
              match unescape e with
              | Some ch => cons_char ch (parse_chars r1)
              | None => None
              end
        end
      else if c <? 32 then None
      else cons_char c (parse_chars r)
  end.

Fixpoint span_digits (s : jsstring) : jsstring * jsstring :=
  match s with
  | c :: r =>
      if is_digit c then let '(ds, rest) := span_digits r in (c :: ds, rest)
      else ([], s)
  | [] => ([], [])
  end.

(** [int]: a single zero, or a non-zero digit followed by digits. *)
Definition parse_int (s : jsstring) : option (jsstring * jsstring) :=
  match s with
  | c :: r =>
      if c =? 48 then Some ([c], r)
      else if is_digit c then
        let '(ds, rest) := span_digits r in Some (c :: ds, rest)
      else None
  | [] => None
  end.

(** [frac]: nothing, or a dot followed by at least one digit. *)
Definition parse_frac (s : jsstring) : option (jsstring * jsstring) :=
  match s with
  | c :: r =>
      if c =? 46 then
        match span_digits r with
        | ([], _) => None
        | (ds, rest) => Some (c :: ds, rest)
        end
      else Some ([], s)
  | [] => Some ([], [])
  end.

(** [exp]: nothing, or [e]/[E], an optional sign and at least one digit. *)
Definition parse_exp (s : jsstring) : option (jsstring * jsstring) :=
  match s with
  | c :: r =>
      if (c =? 101) || (c =? 69) then
        let '(sign, r1) :=
          match r with
          | g :: r' => if (g =? 43) || (g =? 45) then ([g], r') else ([], r)
          | [] => ([], r)
          end in
        match span_digits r1 with
        | ([], _) => None
        | (ds, rest) => Some (c :: sign ++ ds, rest)
        end
      else Some ([], s)
  | [] => Some ([], [])
  end.

Definition parse_number (s : jsstring) : option (jsstring * jsstring) :=
  let '(sign, s1) :=
    match s with
    | c :: r => if c =? 45 then ([c], r) else ([], s)
    | [] => ([], s)
    end in
  match parse_int s1 with
  | None => None
  | Some (i, s2) =>
      match parse_frac s2 with
      | None => None
      | Some (f, s3) =>
          match parse_exp s3 with
          | None => None
          | Some (e, s4) => Some (sign ++ i ++ f ++ e, s4)
          end
      end
  end.

(** [strip_prefix p s] is the rest of [s] after [p], when [s] starts with [p]. *)
Fixpoint strip_prefix (p s : jsstring) : option jsstring :=
  match p, s with
  | [], _ => Some s
  | a :: p', b :: s' => if a =? b then strip_prefix p' s' else None
  | _ :: _, [] => None
  end.

(** Defining a property on the object under construction: a repeated name
    overwrites the earlier value and keeps its place. *)
Fixpoint define_property (k : jsstring) (v : value) (o : list (jsstring * value))
  : list (jsstring * value) :=
  match o with
  | [] => [(k, v)]
  | (k', v') :: o' =>
      if decide (k = k') then (k, v) :: o' else (k', v') :: define_property k v o'
  end.

(** Recursive descent over the JSON grammar.  [parse_value] reads one value
    at the head of the input (no leading white space); [parse_elements] and
    [parse_members] read the rest of an array and of an object after the
    opening bracket, given the items read so far. *)
Fixpoint parse_value (fuel : nat) (s : jsstring) : parse_result value :=
  match fuel with
  | O => OutOfFuel
  | S fuel' =>
      match s with
      | [] => SyntaxError
      | c :: r =>
          if c =? 123 then
            match skip_ws r with
            | d :: r' =>
                if d =? 125 then Parsed (Object []) r'
                else parse_members fuel' [] (d :: r')
            | [] => SyntaxError
            end
          else if c =? 91 then
            match skip_ws r with
            | d :: r' =>
                if d =? 93 then Parsed (Array []) r'
                else parse_elements fuel' [] (d :: r')
            | [] => SyntaxError
            end
          else if c =? 34 then
            match parse_chars r with
            | Some (str, rest) => Parsed (String str) rest
            | None => SyntaxError
            end
          else if c =? 116 then
            match strip_prefix (lit "rue") r with
            | Some rest => Parsed (Bool true) rest
            | None => SyntaxError
            end
          else if c =? 102 then
            match strip_prefix (lit "alse") r with
            | Some rest => Parsed (Bool false) rest
            | None => SyntaxError
            end
          else if c =? 110 then
            match strip_prefix (lit "ull") r with
            | Some rest => Parsed Null rest
            | None => SyntaxError
            end
          else
            match parse_number s with
            | Some (lexeme, rest) => Parsed (Number lexeme) rest
            | None => SyntaxError
            end
      end
  end
with parse_elements (fuel : nat) (acc : list value) (s : jsstring)
  : parse_result value :=
  match fuel with
  | O => OutOfFuel
  | S fuel' =>
      match parse_value fuel' (skip_ws s) with
      | Parsed v rest =>
          match skip_ws rest with
          | d :: r' =>
              if d =? 44 then parse_elements fuel' (acc ++ [v]) r'
              else if d =? 93 then Parsed (Array (acc ++ [v])) r'
              else SyntaxError
          | [] => SyntaxError
          end
      | SyntaxError => SyntaxError
      | OutOfFuel => OutOfFuel
      end
  end
with parse_members (fuel : nat) (acc : list (jsstring * value)) (s : jsstring)
  : parse_result value :=
  match fuel with
  | O => OutOfFuel
  | S fuel' =>
      match skip_ws s with
      | q :: r =>
          if q =? 34 then
            match parse_chars r with
            | Some (key, r1) =>
                match skip_ws r1 with
                | colon :: r2 =>
                    if colon =? 58 then
                      match parse_value fuel' (skip_ws r2) with
                      | Parsed v rest =>
                          match skip_ws rest with
                          | d :: r' =>
                              if d =? 44 then
                                parse_members fuel' (define_property key v acc) r'
                              else if d =? 125 then
                                Parsed (Object (define_property key v acc)) r'
                              else SyntaxError
                          | [] => SyntaxError
                          end
                      | SyntaxError => SyntaxError
                      | OutOfFuel => OutOfFuel
                      end
                    else SyntaxError
                | [] => SyntaxError
                end
            | None => SyntaxError
            end
          else SyntaxError
      | [] => SyntaxError
      end
  end.

(** The recursion depth that is always enough for a text of that length. *)
Definition enough_fuel (text : jsstring) : nat := 2 * length text + 1.

(** [JSON.parse(text)]: one value between optional white space and nothing
    else; [None] stands for the [SyntaxError] the call throws. *)
Definition parse (text : jsstring) : option value :=
  match parse_value (enough_fuel text) (skip_ws text) with
  | Parsed v rest =>
      match skip_ws rest with
      | [] => Some v
      | _ :: _ => None
      end
  | SyntaxError => None
  | OutOfFuel => None
  end.

(** *** [JSON.stringify] *)

Definition hexdigit (d : N) : N := if d <? 10 then 48 + d else 87 + d.

(** [\uXXXX] with four lower-case hexadecimal digits. *)
Definition unicode_escape (c : N) : jsstring :=
  [92; 117; hexdigit (c / 4096 mod 16); hexdigit (c / 256 mod 16);
   hexdigit (c / 16 mod 16); hexdigit (c mod 16)].

Definition is_high_surrogate (c : N) : bool := (0xD800 <=? c) && (c <=? 0xDBFF).
Definition is_low_surrogate (c : N) : bool := (0xDC00 <=? c) && (c <=? 0xDFFF).

(** One code point that is a single code unit: the short escapes, a
    [\uXXXX] escape for the other control characters and for a lone
    surrogate, the code unit itself otherwise. *)
Definition quote_unit (c : N) : jsstring :=
  if c =? 8 then [92; 98]
  else if c =? 9 then [92; 116]
  else if c =? 10 then [92; 110]
  else if c =? 12 then [92; 102]
  else if c =? 13 then [92; 114]
  else if c =? 34 then [92; 34]
  else if c =? 92 then [92; 92]
  else if (c <? 32) || is_high_surrogate c || is_low_surrogate c
  then unicode_escape c
  else [c].

(** The code points of the string in turn: a high surrogate followed by a
    low one is one code point and is copied, everything else is a code unit
    of its own. *)
Fixpoint quote_chars (s : jsstring) : jsstring :=
  match s with
  | [] => []
  | c :: r =>
      match r with
      | d :: r' =>
          if is_high_surrogate c && is_low_surrogate d
          then c :: d :: quote_chars r'
          else quote_unit c ++ quote_chars r
      | [] => quote_unit c
      end
  end.

(** [QuoteJSONString]. *)
Definition quote (s : jsstring) : jsstring := 34 :: quote_chars s ++ [34].

Fixpoint join (sep : jsstring) (parts : list jsstring) : jsstring :=
  match parts with
  | [] => []
  | [p] => p
  | p :: ps => p ++ sep ++ join sep ps
  end.

(** [JSON.stringify(value)] without replacer or indentation.  A number is
    printed as the literal it was read from; the program never passes one
    (the only argument is a [User], whose properties are strings). *)
Fixpoint stringify (v : value) : jsstring :=
  match v with
  | Null => lit "null"
  | Bool true => lit "true"
  | Bool false => lit "false"
  | Number lexeme => lexeme
  | String s => quote s
  | Array elems => [91] ++ join [44] (map stringify elems) ++ [93]
  | Object props =>
      [123] ++ join [44] (map (fun kv => quote (fst kv) ++ [58] ++ stringify (snd kv)) props)
            ++ [125]
  end.

End JSON.

(** ** Completions

    A JavaScript call either returns a value or throws. *)

Inductive exn : Type :=
| SyntaxError                  (* thrown by [JSON.parse] *)
| Error (message : string).    (* [new Error(message)] *)

Inductive completion (A : Type) : Type :=
| Return (a : A)
| Throw (e : exn).
Arguments Return {A} a.
Arguments Throw {A} e.

(** ** React contexts

    [createContext(default)] makes a context; [useContext] in a component
    gives the value of the nearest enclosing provider of that context, and
    the default when the component is rendered under no provider.  Both
    contexts of this program are created with the default [undefined],
    written [None]. *)

Module React.

Definition useContext {A : Type} (default : option A) (enclosing : list A)
  : option A :=
  match enclosing with
  | nearest :: _ => Some nearest
  | [] => default
  end.

End React.

(** ** The session store ([AuthContext.tsx]) *)

Module Auth.

Record User : Type := { id : jsstring; email : jsstring; name : jsstring }.

(** The object a [User] is at run time. *)
Definition User_value (u : User) : JSON.value :=
  JSON.Object [ (lit "id", JSON.String (id u));
                (lit "email", JSON.String (email u));
                (lit "name", JSON.String (name u)) ].

Inductive level : Type := log | error.

(** What the provider reads and writes: its [user] state ([JSON.Null] is
    [null]; at run time it holds whatever [JSON.parse] returned), the
    browser's [localStorage] and the console.  The storage is always
    available: its three functions do not throw. *)
Record State : Type := {
  user : JSON.value;
  localStorage : gmap jsstring jsstring;
  console : list (level * string)
}.

(** Statements of the provider: they change the state and return or throw. *)
Definition M (A : Type) : Type := State -> State * completion A.

Definition ret {A} (a : A) : M A := fun st => (st, Return a).

Definition bind {A B} (m : M A) (k : A -> M B) : M B :=
  fun st =>
    match m st with
    | (st', Return a) => k a st'
    | (st', Throw e) => (st', Throw e)
    end.

Definition throw {A} (e : exn) : M A := fun st => (st, Throw e).

(** [try { body } catch (error) { handler }] *)
Definition try_catch {A} (body : M A) (handler : exn -> M A) : M A :=
  fun st =>
    match body st with
    | (st', Return a) => (st', Return a)
    | (st', Throw e) => handler e st'
    end.

#[global] Instance M_ret : MRet M := @ret.
#[global] Instance M_bind : MBind M := fun A B k m => bind m k.

Definition setUser (v : JSON.value) : M unit :=
  fun st => ({| user := v; localStorage := localStorage st; console := console st |},
             Return tt).

Definition getItem (key : jsstring) : M (option jsstring) :=
  fun st => (st, Return (localStorage st !! key)).

Definition setItem (key text : jsstring) : M unit :=
  fun st => ({| user := user st; localStorage := <[key := text]> (localStorage st);
                console := console st |}, Return tt).

Definition removeItem (key : jsstring) : M unit :=
  fun st => ({| user := user st; localStorage := delete key (localStorage st);
                console := console st |}, Return tt).

Definition console_write (l : level) (line : string) : M unit :=
  fun st => ({| user := user st; localStorage := localStorage st;
                console := console st ++ [(l, line)] |}, Return tt).

Definition JSON_parse (text : jsstring) : M JSON.value :=
  match JSON.parse text with
  | Some v => ret v
  | None => throw SyntaxError
  end.

(** A string in a condition is true when it is not empty. *)
Definition truthy (s : jsstring) : bool :=
  match s with [] => false | _ :: _ => true end.

Definition KEY : jsstring := lit "wasteless_user".

(** The effect that runs once when the provider mounts. *)
Definition restore : M unit :=
  savedUser ← getItem KEY;
  match savedUser with
  | Some text =>
      if truthy text then
        try_catch
          (parsed ← JSON_parse text;
           setUser parsed ;;
           console_write log "✅ User restored from localStorage")
          (fun _ =>
             console_write error "Failed to parse saved user:" ;;
             removeItem KEY)
      else ret tt
  | None => ret tt
  end.

Definition login (userData : User) : M unit :=
  setUser (User_value userData) ;;
  setItem KEY (JSON.stringify (User_value userData)) ;;
  console_write log "✅ User logged in and saved to localStorage".

Definition logout : M unit :=
  setUser JSON.Null ;;
  removeItem KEY ;;
  console_write log "✅ User logged out and removed from localStorage".

(** [user !== null] *)
Definition isAuthenticated (st : State) : bool :=
  match user st with
  | JSON.Null => false
  | _ => true
  end.

(** The state of a provider that has just been created over a browser
    storage: [useState(null)], the effect has not run yet. *)
Definition created (storage : gmap jsstring jsstring) : State :=
  {| user := JSON.Null; localStorage := storage; console := [] |}.

(** Mounting the provider: create it, then run the restore effect. *)
Definition mount (storage : gmap jsstring jsstring) : State * completion unit :=
  restore (created storage).

(** The operations of the store as a consumer or the browser triggers
    them; [Restart] is a reload of the page: a new provider over the storage
    the old one left. *)
Inductive operation : Type :=
| Login (userData : User)
| Logout
| Restart.

Definition step (o : operation) (st : State) : State :=
  match o with
  | Login userData => fst (login userData st)
  | Logout => fst (logout st)
  | Restart => fst (mount (localStorage st))
  end.

(** The identity the durable slot stands for: the value its text parses
    to; a missing slot and a text that does not parse stand for none. *)
Definition persisted (storage : gmap jsstring jsstring) : JSON.value :=
  match storage !! KEY with
  | Some text => default JSON.Null (JSON.parse text)
  | None => JSON.Null
  end.

(** The in-memory identity is the one the durable slot stands for. *)
Definition consistent (st : State) : Prop :=
  user st = persisted (localStorage st).

Definition run (ops : list operation) (st : State) : State :=
  foldl (fun s o => step o s) st ops.

(** The slot mirrors the memory: no slot and no user, or the slot holds the
    serialization of the [User] in memory. *)
Definition mirrored (st : State) : Prop :=
  match localStorage st !! KEY with
  | None => user st = JSON.Null
  | Some text =>
      ∃ u, user st = User_value u ∧ text = JSON.stringify (User_value u)
  end.

(** What a consumer gets from [useAuth()]: the readable part of the
    provider's [value] object. *)
Record AuthContextType : Type := {
  ctx_user : JSON.value;
  ctx_isAuthenticated : bool
}.

Definition value (st : State) : AuthContextType :=
  {| ctx_user := user st; ctx_isAuthenticated := isAuthenticated st |}.

(** [createContext<AuthContextType | undefined>(undefined)] *)
Definition AuthContext : option AuthContextType := None.

Definition useAuth (enclosing : list AuthContextType) : completion AuthContextType :=
  match React.useContext AuthContext enclosing with
  | None => Throw (Error "useAuth must be used within an AuthProvider")
  | Some context => Return context
  end.

End Auth.

(** ** The notification store ([UIContext.tsx]) *)

Module UI.

Inductive ToastType : Type := success | error | info | warning.

Record Toast : Type := { id : jsstring; message : jsstring; type : ToastType }.

(** A pending [setTimeout]: the time at which it is due and the argument of
    its callback, which in this store is always [() => removeToast(id)]. *)
Record Timer : Type := { due : Z; target : jsstring }.

(** The provider's two pieces of state, the clock [Date.now()] reads (in
    milliseconds; the timers run on the same clock) and the pending timers
    in the order they were set. *)
Record State : Type := {
  isLoading : bool;
  toasts : list Toast;
  now : Z;
  timers : list Timer
}.

Definition initial (clock : Z) : State :=
  {| isLoading := false; toasts := []; now := clock; timers := [] |}.

Definition setIsLoading (loading : bool) (st : State) : State :=
  {| isLoading := loading; toasts := toasts st; now := now st; timers := timers st |}.

(** [setToasts(update)] with a functional update. *)
Definition setToasts (update : list Toast -> list Toast) (st : State) : State :=
  {| isLoading := isLoading st; toasts := update (toasts st); now := now st;
     timers := timers st |}.

Definition setTimeout (callback_id : jsstring) (delay : Z) (st : State) : State :=
  {| isLoading := isLoading st; toasts := toasts st; now := now st;
     timers := timers st ++ [ {| due := now st + delay; target := callback_id |} ] |}.

Definition removeToast (id0 : jsstring) (st : State) : State :=
  setToasts (fun prev => filter (fun toast => id toast ≠ id0) prev) st.

(** [showToast(message, type = "info")].  The body has no [return]: the call
    evaluates to [undefined], written [None]. *)
Definition showToast (message0 : jsstring) (type0 : option ToastType) (st : State)
  : State * option jsstring :=
  let type1 := match type0 with Some t => t | None => info end in
  let id0 := Number_toString (now st) in
  let newToast := {| id := id0; message := message0; type := type1 |} in
  let st1 := setToasts (fun prev => prev ++ [newToast]) st in
  let st2 := setTimeout id0 3000 st1 in
  (st2, None).

(** Time passes: the clock moves on by [dt] milliseconds and the callbacks
    of the timers that are due by then run, in the order they were set. *)
Definition elapse (dt : N) (st : State) : State :=
  let now' := (now st + Z.of_N dt)%Z in
  let due_now := filter (fun t => (due t ≤ now')%Z) (timers st) in
  let pending := filter (fun t => ¬ (due t ≤ now')%Z) (timers st) in
  foldl (fun s t => removeToast (target t) s)
        {| isLoading := isLoading st; toasts := toasts st; now := now';
           timers := pending |}
        due_now.

(** Several [showToast] calls one after the other with no time passing in
    between (one event handler, one tick of the event loop). *)
Definition showToasts (calls : list (jsstring * option ToastType)) (st : State)
  : State :=
  foldl (fun s call => fst (showToast (fst call) (snd call) s)) st calls.

(** What happens to the store: a consumer calls a function of the context
    value, or time passes. *)
Inductive event : Type :=
| ShowToast (message0 : jsstring) (type0 : option ToastType)
| RemoveToast (id0 : jsstring)
| SetIsLoading (loading : bool)
| Elapse (dt : N).

Definition step (e : event) (st : State) : State :=
  match e with
  | ShowToast message0 type0 => fst (showToast message0 type0 st)
  | RemoveToast id0 => removeToast id0 st
  | SetIsLoading loading => setIsLoading loading st
  | Elapse dt => elapse dt st
  end.

Definition run (events : list event) (st : State) : State :=
  foldl (fun s e => step e s) st events.

(** Every pending timer was set by [showToast]: it is due three seconds
    after the clock reading its id was made from, and that reading is not
    in the future. *)
Definition timers_wf (st : State) : Prop :=
  Forall (fun tm => target tm = Number_toString (due tm - 3000)
                    ∧ (due tm ≤ now st + 3000)%Z)
         (timers st).

(** A state with three toasts on screen, two of them made in the same
    millisecond, and their three timers pending. *)
Definition sample : State :=
  {| isLoading := false;
     toasts := [ {| id := lit "1000"; message := lit "saved"; type := success |};
                 {| id := lit "1000"; message := lit "again"; type := info |};
                 {| id := lit "1005"; message := lit ""; type := warning |} ];
     now := 1005;
     timers := [ {| due := 4000; target := lit "1000" |};
                 {| due := 4000; target := lit "1000" |};
                 {| due := 4005; target := lit "1005" |} ] |}.

(** What a consumer reads through [useUI()]. *)
Record UIContextType : Type := {
  ctx_isLoading : bool;
  ctx_toasts : list Toast
}.

Definition value (st : State) : UIContextType :=
  {| ctx_isLoading := isLoading st; ctx_toasts := toasts st |}.

(** [createContext<UIContextType | undefined>(undefined)] *)
Definition UIContext : option UIContextType := None.

Definition useUI (enclosing : list UIContextType) : completion UIContextType :=
  match React.useContext UIContext enclosing with
  | None => Throw (Error "useUI must be used within a UIProvider")
  | Some context => Return context
  end.

End UI.

(** ** The toast list on screen ([ToastContainer.tsx]) *)

Module ToastContainer.

(** The string a toast type is at run time. *)
Definition type_string (t : UI.ToastType) : jsstring :=
  match t with
  | UI.success => lit "success"
  | UI.error => lit "error"
  | UI.info => lit "info"
  | UI.warning => lit "warning"
  end.

(** The [switch] on the type: three cases of their own, and [info] with
    the default. *)
Definition getAlertClass (type0 : jsstring) : jsstring :=
  if decide (type0 = lit "success") then lit "alert-success"
  else if decide (type0 = lit "error") then lit "alert-error"
  else if decide (type0 = lit "warning") then lit "alert-warning"
  else lit "alert-info".

(** One rendered toast: the React key and the class of the [div], the text
    of the [span], and the id its button passes to [removeToast]. *)
Record Alert : Type := {
  key : jsstring;
  className : jsstring;
  text : jsstring;
  onClick : jsstring
}.

Definition alert (toast : UI.Toast) : Alert :=
  {| key := UI.id toast;
     className := lit "alert " ++ getAlertClass (type_string (UI.type toast))
                  ++ lit " shadow-lg";
     text := UI.message toast;
     onClick := UI.id toast |}.

(** [toasts.map(...)] *)
Definition render (context : UI.UIContextType) : list Alert :=
  alert <$> UI.ctx_toasts context.


(** A click on the button of the [n]-th alert on screen (from 0); there is
    nothing to click past the end of the list. *)
Definition click (n : nat) (st : UI.State) : UI.State :=
  match render (UI.value st) !! n with
  | Some a => UI.removeToast (onClick a) st
  | None => st
  end.

End ToastContainer.

(** ** The demonstration page ([contextDummy.tsx]) *)

Module ContextDummy.

(** The page works on both stores; [loads] are the times at which the
    pending [handleLoadData] timers are due, in the order they were set. *)
Record State : Type := {
  auth : Auth.State;
  ui : UI.State;
  loads : list Z
}.

Definition mockUser : Auth.User :=
  {| Auth.id := lit "123";
     Auth.email := lit "user@wasteless.com";
     Auth.name := lit "John Doe" |}.

Definition handleLogin (st : State) : State * completion unit :=
  match Auth.login mockUser (auth st) with
  | (auth', Return _) =>
      ({| auth := auth';
          ui := fst (UI.showToast (lit "Successfully logged in!") (Some UI.success)
                                  (ui st));
          loads := loads st |}, Return tt)
  | (auth', Throw e) => ({| auth := auth'; ui := ui st; loads := loads st |}, Throw e)
  end.

Definition handleLogout (st : State) : State * completion unit :=
  match Auth.logout (auth st) with
  | (auth', Return _) =>
      ({| auth := auth';
          ui := fst (UI.showToast (lit "Logged out") (Some UI.info) (ui st));
          loads := loads st |}, Return tt)
  | (auth', Throw e) => ({| auth := auth'; ui := ui st; loads := loads st |}, Throw e)
  end.

(** The callback [handleLoadData] hands to [setTimeout]. *)
Definition loadData_callback (u : UI.State) : UI.State :=
  fst (UI.showToast (lit "Data loaded successfully!") (Some UI.success)
                    (UI.setIsLoading false u)).

Definition handleLoadData (st : State) : State :=
  let u1 := UI.setIsLoading true (ui st) in
  let u2 := fst (UI.showToast (lit "Loading data...") (Some UI.info) u1) in
  {| auth := auth st; ui := u2; loads := loads st ++ [ (UI.now u2 + 2000)%Z ] |}.

(** The timers of the page and of the notification store up to the time
    [until], each run when it is due: the store's timers that come before
    the first pending load, that load's callback at its due time, and so on
    through the loads that are due; then the store's timers up to [until]. *)
Fixpoint run_timers (pending : list Z) (until : Z) (u : UI.State)
  : list Z * UI.State :=
  match pending with
  | [] => ([], UI.elapse (Z.to_N (until - UI.now u)) u)
  | d :: rest =>
      if decide (d ≤ until)%Z then
        run_timers rest until
                   (loadData_callback (UI.elapse (Z.to_N (d - UI.now u)) u))
      else (pending, UI.elapse (Z.to_N (until - UI.now u)) u)
  end.

(** Time passes on the page. *)
Definition elapse (dt : N) (st : State) : State :=
  let r := run_timers (loads st) (UI.now (ui st) + Z.of_N dt)%Z (ui st) in
  {| auth := auth st; ui := snd r; loads := fst r |}.

(** The page is loaded again: the session provider mounts over the storage
    that is there, the notification provider starts empty at the clock's
    reading, and the timers of the old page are gone. *)
Definition reload (clock : Z) (st : State) : State :=
  {| auth := fst (Auth.mount (Auth.localStorage (auth st)));
     ui := UI.initial clock;
     loads := [] |}.

(** The own property of that name among the properties of an object. *)
Fixpoint lookup_property (property : jsstring) (props : list (jsstring * JSON.value))
  : option JSON.value :=
  match props with
  | [] => None
  | (k, v) :: rest =>
      if decide (k = property) then Some v else lookup_property property rest
  end.

(** [user?.name] and [user?.email]: the property of that name of an object,
    [undefined] (written [None]) for [null] and for a value that has no such
    property (no prototype defines either name). *)
Definition optional_get (property : jsstring) (v : JSON.value) : option JSON.value :=
  match v with
  | JSON.Object props => lookup_property property props
  | _ => None
  end.

(** What the page shows that depends on the stores. *)
Record View : Type := {
  logged_in : bool;
  shown_name : option JSON.value;
  shown_email : option JSON.value;
  load_button : jsstring;
  overlay : bool
}.

Definition view (a : Auth.AuthContextType) (u : UI.UIContextType) : View :=
  {| logged_in := Auth.ctx_isAuthenticated a;
     shown_name := optional_get (lit "name") (Auth.ctx_user a);
     shown_email := optional_get (lit "email") (Auth.ctx_user a);
     load_button := if UI.ctx_isLoading u then lit "Loading..." else lit "Load Data";
     overlay := UI.ctx_isLoading u |}.


Definition page_view (st : State) : View :=
  view (Auth.value (auth st)) (UI.value (ui st)).

End ContextDummy.

(** ** The application ([App.tsx]) *)

Module App.



End App.

(** ** Sequences of events *)

Module Timeline.

(** The user a history of the session store ends with: the one of the last
    [Login] that no [Logout] follows; a reload changes nothing. *)
Fixpoint current_user (ops : list Auth.operation) (current : option Auth.User)
  : option Auth.User :=
  match ops with
  | [] => current
  | Auth.Login userData :: rest => current_user rest (Some userData)
  | Auth.Logout :: rest => current_user rest None
  | Auth.Restart :: rest => current_user rest current
  end.

(** No two [showToast] calls without time passing in between. *)
Fixpoint one_show_per_tick (shown : bool) (events : list UI.event) : bool :=
  match events with
  | [] => true
  | UI.ShowToast _ _ :: rest => negb shown && one_show_per_tick true rest
  | UI.Elapse dt :: rest =>
      one_show_per_tick (if (dt =? 0)%N then shown else false) rest
  | _ :: rest => one_show_per_tick shown rest
  end.

(** Every toast on screen has a pending timer whose callback removes it. *)
Definition every_toast_has_timer (st : UI.State) : Prop :=
  Forall (fun toast => UI.id toast ∈ UI.target <$> UI.timers st) (UI.toasts st).

(** The toasts are listed oldest first: their ids are the decimal readings
    of the clock at which each was shown, the readings never go down along
    the list and lie between [clock] and the present reading. *)
Definition oldest_first (clock : Z) (st : UI.State) : Prop :=
  ∃ times,
    UI.id <$> UI.toasts st = Number_toString <$> times ∧
    StronglySorted Z.le times ∧
    Forall (fun t => (clock ≤ t ≤ UI.now st)%Z) times ∧
    (clock ≤ UI.now st)%Z.

(** The ids on screen are pairwise different and each is the reading of
    the clock at some time up to now, before now when no toast has been
    shown at the present reading ([shown] is false). *)
Definition ids_fresh (shown : bool) (st : UI.State) : Prop :=
  NoDup (UI.id <$> UI.toasts st) ∧
  Forall (fun toast => ∃ t, UI.id toast = Number_toString t ∧ (t ≤ UI.now st)%Z ∧
                            (shown = false → (t < UI.now st)%Z))
         (UI.toasts st).

End Timeline.

(** * Properties *)

(** ** Strings *)

Lemma lit_inj s1 s2 : lit s1 = lit s2 → s1 = s2.
Proof.
  revert s2. induction s1 as [|a s1 IH]; intros [|b s2]; simpl; try done.
  intros H. injection H as Hab Hs. f_equal; [|by apply IH].
  by rewrite <- (ascii_N_embedding a), <- (ascii_N_embedding b), Hab.
Qed.

Lemma Number_toString_inj z1 z2 : Number_toString z1 = Number_toString z2 → z1 = z2.
Proof.
  unfold Number_toString. intros H%lit_inj.
  apply DecimalZ.to_int_inj.
  assert (Some (Z.to_int z1) = Some (Z.to_int z2)) as [= ->]; [|done].
  by rewrite <- !NilEmpty.isi, H.
Qed.

(** ** [JSON.parse] and [JSON.stringify] *)

Module JSONFacts.

Ltac ncmp :=
  repeat match goal with
  | |- context [N.eqb ?a ?b] => destruct (N.eqb_spec a b)
  | |- context [N.leb ?a ?b] => destruct (N.leb_spec a b)
  | |- context [N.ltb ?a ?b] => destruct (N.ltb_spec a b)
  end; simpl; try lia.

Lemma hexval_hexdigit d : d < 16 → JSON.hexval (JSON.hexdigit d) = Some d.
Proof.
  intros Hd. unfold JSON.hexval, JSON.hexdigit.
  ncmp; f_equal; lia.
Qed.

Lemma hex4_value c :
  c < 65536 →
  ((c / 4096 mod 16 * 16 + c / 256 mod 16) * 16 + c / 16 mod 16) * 16 + c mod 16 = c.
Proof.
  intros Hc. zify. Z.to_euclidean_division_equations. lia.
Qed.

Lemma parse_chars_unicode_escape c rest :
  c < 65536 →
  JSON.parse_chars (JSON.unicode_escape c ++ rest)
  = JSON.cons_char c (JSON.parse_chars rest).
Proof.
  intros Hc. unfold JSON.unicode_escape.
  change (JSON.parse_chars (_ ++ rest)) with
    (match JSON.hexval (JSON.hexdigit (c / 4096 mod 16)),
           JSON.hexval (JSON.hexdigit (c / 256 mod 16)),
           JSON.hexval (JSON.hexdigit (c / 16 mod 16)),
           JSON.hexval (JSON.hexdigit (c mod 16)) with
     | Some a, Some b, Some c', Some d =>
         JSON.cons_char (((a * 16 + b) * 16 + c') * 16 + d) (JSON.parse_chars rest)
     | _, _, _, _ => None
     end).
  rewrite !hexval_hexdigit by (apply N.mod_lt; lia).
  by rewrite hex4_value.
Qed.

Lemma parse_chars_plain c rest :
  c ≠ 34 → c ≠ 92 → 32 ≤ c →
  JSON.parse_chars (c :: rest) = JSON.cons_char c (JSON.parse_chars rest).
Proof.
  intros H1 H2 H3. simpl.
  destruct (N.eqb_spec c 34); [done|].
  destruct (N.eqb_spec c 92); [done|].
  destruct (N.ltb_spec c 32); [lia|done].
Qed.

Lemma parse_chars_quote_unit c rest :
  JSON.parse_chars (JSON.quote_unit c ++ rest)
  = JSON.cons_char c (JSON.parse_chars rest).
Proof.
  unfold JSON.quote_unit.
  destruct (N.eqb_spec c 8) as [->|]; [done|].
  destruct (N.eqb_spec c 9) as [->|]; [done|].
  destruct (N.eqb_spec c 10) as [->|]; [done|].
  destruct (N.eqb_spec c 12) as [->|]; [done|].
  destruct (N.eqb_spec c 13) as [->|]; [done|].
  destruct (N.eqb_spec c 34) as [->|]; [done|].
  destruct (N.eqb_spec c 92) as [->|]; [done|].
  destruct (_ || _ || _) eqn:Hesc.
  - apply parse_chars_unicode_escape.
    unfold JSON.is_high_surrogate, JSON.is_low_surrogate in Hesc.
    revert Hesc; ncmp; done.
  - apply parse_chars_plain; try done.
    revert Hesc; ncmp; done.
Qed.

Lemma parse_chars_surrogate_pair c d rest :
  JSON.is_high_surrogate c && JSON.is_low_surrogate d = true →
  JSON.parse_chars (c :: d :: rest)
  = JSON.cons_char c (JSON.cons_char d (JSON.parse_chars rest)).
Proof.
  unfold JSON.is_high_surrogate, JSON.is_low_surrogate. intros H.
  rewrite !parse_chars_plain; first done; revert H; ncmp; done.
Qed.

(** Reading back a quoted string gives the string and stops after the
    closing quote. *)
Lemma parse_chars_quote_chars s rest :
  JSON.parse_chars (JSON.quote_chars s ++ 34 :: rest) = Some (s, rest).
Proof.
  enough (JSON.parse_chars (JSON.quote_chars s ++ 34 :: rest) = Some (s, rest) ∧
          ∀ c, JSON.parse_chars (JSON.quote_chars (c :: s) ++ 34 :: rest)
               = Some (c :: s, rest)) as [? _] by done.
  induction s as [|d s [IH1 IH2]].
  - split; [done|]. intros c. simpl JSON.quote_chars.
    by rewrite parse_chars_quote_unit.
  - split; [apply IH2|]. intros c.
    change (JSON.quote_chars (c :: d :: s)) with
      (if JSON.is_high_surrogate c && JSON.is_low_surrogate d
       then c :: d :: JSON.quote_chars s
       else JSON.quote_unit c ++ JSON.quote_chars (d :: s)).
    destruct (_ && _) eqn:Hpair.
    + rewrite <- !app_comm_cons, parse_chars_surrogate_pair by done.
      by rewrite IH1.
    + rewrite <- app_assoc, parse_chars_quote_unit, IH2. done.
Qed.

(** *** The equations of the parser *)

Lemma parse_value_eq fuel s :
  JSON.parse_value (S fuel) s
  = match s with
    | [] => JSON.SyntaxError
    | c :: r =>
        if c =? 123 then
          match JSON.skip_ws r with
          | d :: r' =>
              if d =? 125 then JSON.Parsed (JSON.Object []) r'
              else JSON.parse_members fuel [] (d :: r')
          | [] => JSON.SyntaxError
          end
        else if c =? 91 then
          match JSON.skip_ws r with
          | d :: r' =>
              if d =? 93 then JSON.Parsed (JSON.Array []) r'
              else JSON.parse_elements fuel [] (d :: r')
          | [] => JSON.SyntaxError
          end
        else if c =? 34 then
          match JSON.parse_chars r with
          | Some (str, rest) => JSON.Parsed (JSON.String str) rest
          | None => JSON.SyntaxError
          end
        else if c =? 116 then
          match JSON.strip_prefix (lit "rue") r with
          | Some rest => JSON.Parsed (JSON.Bool true) rest
          | None => JSON.SyntaxError
          end
        else if c =? 102 then
          match JSON.strip_prefix (lit "alse") r with
          | Some rest => JSON.Parsed (JSON.Bool false) rest
          | None => JSON.SyntaxError
          end
        else if c =? 110 then
          match JSON.strip_prefix (lit "ull") r with
          | Some rest => JSON.Parsed JSON.Null rest
          | None => JSON.SyntaxError
          end
        else
          match JSON.parse_number s with
          | Some (lexeme, rest) => JSON.Parsed (JSON.Number lexeme) rest
          | None => JSON.SyntaxError
          end
    end.
Proof. by destruct s. Qed.

Lemma parse_elements_eq fuel acc s :
  JSON.parse_elements (S fuel) acc s
  = match JSON.parse_value fuel (JSON.skip_ws s) with
    | JSON.Parsed v rest =>
        match JSON.skip_ws rest with
        | d :: r' =>
            if d =? 44 then JSON.parse_elements fuel (acc ++ [v]) r'
            else if d =? 93 then JSON.Parsed (JSON.Array (acc ++ [v])) r'
            else JSON.SyntaxError
        | [] => JSON.SyntaxError
        end
    | JSON.SyntaxError => JSON.SyntaxError
    | JSON.OutOfFuel => JSON.OutOfFuel
    end.
Proof. reflexivity. Qed.

Lemma parse_members_eq fuel acc s :
  JSON.parse_members (S fuel) acc s
  = match JSON.skip_ws s with
    | q :: r =>
        if q =? 34 then
          match JSON.parse_chars r with
          | Some (key, r1) =>
              match JSON.skip_ws r1 with
              | colon :: r2 =>
                  if colon =? 58 then
                    match JSON.parse_value fuel (JSON.skip_ws r2) with
                    | JSON.Parsed v rest =>
                        match JSON.skip_ws rest with
                        | d :: r' =>
                            if d =? 44 then
                              JSON.parse_members fuel (JSON.define_property key v acc) r'
                            else if d =? 125 then
                              JSON.Parsed (JSON.Object (JSON.define_property key v acc)) r'
                            else JSON.SyntaxError
                        | [] => JSON.SyntaxError
                        end
                    | JSON.SyntaxError => JSON.SyntaxError
                    | JSON.OutOfFuel => JSON.OutOfFuel
                    end
                  else JSON.SyntaxError
              | [] => JSON.SyntaxError
              end
          | None => JSON.SyntaxError
          end
        else JSON.SyntaxError
    | [] => JSON.SyntaxError
    end.
Proof. reflexivity. Qed.

(** *** How much input each reader consumes *)

Lemma length_skip_ws s : (length (JSON.skip_ws s) ≤ length s)%nat.
Proof. induction s as [|c s IH]; simpl; [lia|]. destruct (JSON.is_ws c); simpl; lia. Qed.

Lemma length_cons_char c r str rest :
  JSON.cons_char c r = Some (str, rest) →
  ∃ str', r = Some (str', rest).
Proof. destruct r as [[??]|]; simpl; intros; simplify_eq; eauto. Qed.

Lemma length_parse_chars s str rest :
  JSON.parse_chars s = Some (str, rest) → (length rest < length s)%nat.
Proof.
  remember (length s) as n eqn:Hn. revert s str rest Hn.
  induction n as [n IH] using lt_wf_ind. intros s str rest -> H.
  destruct s as [|c r]; [done|]. simpl in H.
  destruct (c =? 34).
  { simplify_eq. simpl. lia. }
  destruct (c =? 92).
  - destruct r as [|e r1]; [done|].
    destruct (e =? 117).
    + destruct r1 as [|h1 [|h2 [|h3 [|h4 r2]]]]; try done.
      repeat case_match; try done.
      apply length_cons_char in H as [str' H].
      specialize (IH (length r2) ltac:(simpl; lia) r2 _ _ eq_refl H). simpl. lia.
    + case_match; [|done].
      apply length_cons_char in H as [str' H].
      specialize (IH (length r1) ltac:(simpl; lia) r1 _ _ eq_refl H). simpl. lia.
  - destruct (c <? 32); [done|].
    apply length_cons_char in H as [str' H].
    specialize (IH (length r) ltac:(simpl; lia) r _ _ eq_refl H). simpl. lia.
Qed.

Lemma length_span_digits s ds rest :
  JSON.span_digits s = (ds, rest) → (length rest ≤ length s)%nat.
Proof.
  revert ds rest. induction s as [|c s IH]; intros ds rest H; simpl in H.
  - by simplify_eq.
  - destruct (JSON.is_digit c).
    + destruct (JSON.span_digits s) as [ds' rest'] eqn:E. simplify_eq.
      specialize (IH _ _ eq_refl). simpl. lia.
    + by simplify_eq.
Qed.

Lemma length_parse_int s i rest :
  JSON.parse_int s = Some (i, rest) → (length rest < length s)%nat.
Proof.
  destruct s as [|c r]; [done|]. simpl.
  destruct (c =? 48); [intros; simplify_eq; simpl; lia|].
  destruct (JSON.is_digit c); [|done].
  destruct (JSON.span_digits r) as [ds rest'] eqn:E. intros; simplify_eq.
  apply length_span_digits in E. simpl. lia.
Qed.

Lemma length_parse_frac s f rest :
  JSON.parse_frac s = Some (f, rest) → (length rest ≤ length s)%nat.
Proof.
  destruct s as [|c r]; simpl; [by intros; simplify_eq|].
  destruct (c =? 46); [|by intros; simplify_eq].
  destruct (JSON.span_digits r) as [[|d ds] rest'] eqn:E; [done|].
  intros; simplify_eq. apply length_span_digits in E. simpl. lia.
Qed.

Lemma length_parse_exp s e rest :
  JSON.parse_exp s = Some (e, rest) → (length rest ≤ length s)%nat.
Proof.
  destruct s as [|c r]; simpl; [by intros; simplify_eq|].
  destruct (_ || _); [|by intros; simplify_eq].
  destruct r as [|g r'].
  - simpl. done.
  - destruct (_ || _).
    + destruct (JSON.span_digits r') as [[|d ds] rest'] eqn:E; [done|].
      intros; simplify_eq. apply length_span_digits in E. simpl. lia.
    + destruct (JSON.span_digits (g :: r')) as [[|d ds] rest'] eqn:E; [done|].
      intros; simplify_eq. apply length_span_digits in E. simpl in *. lia.
Qed.

Lemma length_parse_number s lexeme rest :
  JSON.parse_number s = Some (lexeme, rest) → (length rest < length s)%nat.
Proof.
  unfold JSON.parse_number.
  destruct (match s with
            | [] => ([], s)
            | c :: r => if c =? 45 then ([c], r) else ([], s)
            end) as [sign s1] eqn:Hsign.
  assert (length s1 ≤ length s)%nat.
  { destruct s as [|c r]; [by simplify_eq|].
    destruct (c =? 45); simplify_eq; simpl; lia. }
  destruct (JSON.parse_int s1) as [[i s2]|] eqn:Hi; [|done].
  destruct (JSON.parse_frac s2) as [[f s3]|] eqn:Hf; [|done].
  destruct (JSON.parse_exp s3) as [[e s4]|] eqn:He; [|done].
  intros; simplify_eq.
  apply length_parse_int in Hi. apply length_parse_frac in Hf.
  apply length_parse_exp in He. lia.
Qed.

Lemma length_strip_prefix p s rest :
  JSON.strip_prefix p s = Some rest → (length rest ≤ length s)%nat.
Proof.
  revert s. induction p as [|a p IH]; intros s H.
  - simpl in H. by simplify_eq.
  - destruct s as [|b s]; [done|]. simpl in H.
    destruct (a =? b); [|done]. apply IH in H. simpl. lia.
Qed.

Ltac lengths :=
  repeat match goal with
  | H : JSON.skip_ws ?s = _ |- _ =>
      let L := fresh "L" in
      pose proof (length_skip_ws s) as L; rewrite H in L; clear H
  | H : JSON.parse_chars _ = Some _ |- _ => apply length_parse_chars in H
  | H : JSON.parse_number _ = Some _ |- _ => apply length_parse_number in H
  | H : JSON.strip_prefix _ _ = Some _ |- _ => apply length_strip_prefix in H
  end; simpl in *.

(** Every reader that returns a value has consumed some input. *)
Lemma parse_consumes fuel :
  (∀ s v rest, JSON.parse_value fuel s = JSON.Parsed v rest →
               (length rest < length s)%nat) ∧
  (∀ acc s v rest, JSON.parse_elements fuel acc s = JSON.Parsed v rest →
               (length rest < length s)%nat) ∧
  (∀ acc s v rest, JSON.parse_members fuel acc s = JSON.Parsed v rest →
               (length rest < length s)%nat).
Proof.
  induction fuel as [|fuel (IHv & IHe & IHm)]; [done|].
  split_and!.
  - intros s v rest. rewrite parse_value_eq. intros H.
    repeat case_match; simplify_eq; lengths; try lia.
    + apply IHm in H. lengths. lia.
    + apply IHe in H. lengths. lia.
  - intros acc s v rest. rewrite parse_elements_eq. intros H.
    destruct (JSON.parse_value fuel _) as [v1 rest1| |] eqn:Hv; try done.
    apply IHv in Hv. pose proof (length_skip_ws s).
    repeat case_match; simplify_eq; lengths; try lia.
    apply IHe in H. lia.
  - intros acc s v rest. rewrite parse_members_eq. intros H.
    destruct (JSON.skip_ws s) as [|q r] eqn:Hs; [done|].
    destruct (q =? 34); [|done].
    destruct (JSON.parse_chars r) as [[key r1]|] eqn:Hk; [|done].
    destruct (JSON.skip_ws r1) as [|colon r2] eqn:Hc; [done|].
    destruct (colon =? 58); [|done].
    destruct (JSON.parse_value fuel _) as [v1 rest1| |] eqn:Hv; try done.
    apply IHv in Hv. pose proof (length_skip_ws r2).
    repeat case_match; simplify_eq; lengths; try lia.
    apply IHm in H. lia.
Qed.

(** With fuel above twice the length of the input no reader stops for
    lack of fuel. *)
Lemma parse_fuel fuel :
  (∀ s, (2 * length s + 1 ≤ fuel)%nat → JSON.parse_value fuel s ≠ JSON.OutOfFuel) ∧
  (∀ acc s, (2 * length s + 2 ≤ fuel)%nat →
            JSON.parse_elements fuel acc s ≠ JSON.OutOfFuel) ∧
  (∀ acc s, (2 * length s + 2 ≤ fuel)%nat →
            JSON.parse_members fuel acc s ≠ JSON.OutOfFuel).
Proof.
  induction fuel as [|fuel (IHv & IHe & IHm)]; [split_and!; intros; lia|].
  split_and!.
  - intros s Hs. rewrite parse_value_eq.
    repeat case_match; simplify_eq; try done; lengths.
    + apply IHm. simpl. lia.
    + apply IHe. simpl. lia.
  - intros acc s Hs. rewrite parse_elements_eq.
    pose proof (length_skip_ws s).
    destruct (JSON.parse_value fuel _) as [v1 rest1| |] eqn:Hv; try done.
    + apply (proj1 (parse_consumes fuel)) in Hv.
      repeat case_match; simplify_eq; try done; lengths.
      apply IHe. lia.
    + apply IHv in Hv; [done|lia].
  - intros acc s Hs. rewrite parse_members_eq.
    destruct (JSON.skip_ws s) as [|q r] eqn:Hq; [done|].
    destruct (q =? 34); [|done].
    destruct (JSON.parse_chars r) as [[key r1]|] eqn:Hk; [|done].
    destruct (JSON.skip_ws r1) as [|colon r2] eqn:Hc; [done|].
    destruct (colon =? 58); [|done].
    pose proof (length_skip_ws r2).
    destruct (JSON.parse_value fuel _) as [v1 rest1| |] eqn:Hv; try done.
    + apply (proj1 (parse_consumes fuel)) in Hv.
      repeat case_match; simplify_eq; try done; lengths.
      apply IHm. lia.
    + lengths. apply IHv in Hv; [done|lia].
Qed.

(** [enough_fuel] is enough: a [None] of [parse] is a syntax error of the
    text. *)
Lemma parse_never_out_of_fuel text :
  JSON.parse_value (JSON.enough_fuel text) (JSON.skip_ws text) ≠ JSON.OutOfFuel.
Proof.
  apply parse_fuel. unfold JSON.enough_fuel.
  pose proof (length_skip_ws text). lia.
Qed.

(** *** Reading back a serialized [User] *)

Lemma skip_ws_cons c r : JSON.is_ws c = false → JSON.skip_ws (c :: r) = c :: r.
Proof. intros H. simpl. by rewrite H. Qed.

Lemma parse_value_object fuel r :
  JSON.parse_value (S fuel) (123 :: r)
  = match JSON.skip_ws r with
    | d :: r' =>
        if d =? 125 then JSON.Parsed (JSON.Object []) r'
        else JSON.parse_members fuel [] (d :: r')
    | [] => JSON.SyntaxError
    end.
Proof. reflexivity. Qed.

Lemma parse_value_string fuel r :
  JSON.parse_value (S fuel) (34 :: r)
  = match JSON.parse_chars r with
    | Some (str, rest) => JSON.Parsed (JSON.String str) rest
    | None => JSON.SyntaxError
    end.
Proof. reflexivity. Qed.

Lemma parse_value_quote n s rest :
  JSON.parse_value (S n) (JSON.quote s ++ rest) = JSON.Parsed (JSON.String s) rest.
Proof.
  unfold JSON.quote. rewrite <- app_comm_cons, <- app_assoc. cbn [app].
  by rewrite parse_value_string, parse_chars_quote_chars.
Qed.

(** The head of a member whose value is a string: the name, the colon and
    the value are read, and the parser looks at what follows. *)
Lemma parse_members_string n acc k v rest :
  JSON.parse_members (S (S n)) acc (JSON.quote k ++ 58 :: JSON.quote v ++ rest)
  = match JSON.skip_ws rest with
    | d :: r' =>
        if d =? 44 then
          JSON.parse_members (S n) (JSON.define_property k (JSON.String v) acc) r'
        else if d =? 125 then
          JSON.Parsed (JSON.Object (JSON.define_property k (JSON.String v) acc)) r'
        else JSON.SyntaxError
    | [] => JSON.SyntaxError
    end.
Proof.
  rewrite parse_members_eq.
  unfold JSON.quote at 1. rewrite <- app_comm_cons, <- app_assoc.
  rewrite skip_ws_cons by done. cbn [app].
  change (34 =? 34) with true. cbv iota.
  rewrite parse_chars_quote_chars, skip_ws_cons by done.
  change (58 =? 58) with true. cbv iota.
  unfold JSON.quote at 1. rewrite <- app_comm_cons, skip_ws_cons by done.
  change (34 :: (JSON.quote_chars v ++ [34]) ++ rest)
    with (JSON.quote v ++ rest).
  by rewrite parse_value_quote.
Qed.

Lemma stringify_User u :
  JSON.stringify (Auth.User_value u)
  = 123 :: JSON.quote (lit "id") ++ 58 :: JSON.quote (Auth.id u) ++
    44 :: JSON.quote (lit "email") ++ 58 :: JSON.quote (Auth.email u) ++
    44 :: JSON.quote (lit "name") ++ 58 :: JSON.quote (Auth.name u) ++ [125].
Proof.
  unfold Auth.User_value.
  cbn [JSON.stringify map JSON.join fst snd].
  rewrite <- !app_assoc. by cbn [app].
Qed.

Lemma parse_value_User n u rest :
  JSON.parse_value (5 + n) (JSON.stringify (Auth.User_value u) ++ rest)
  = JSON.Parsed (Auth.User_value u) rest.
Proof.
  rewrite stringify_User.
  change (5 + n)%nat with (S (S (S (S (S n))))).
  repeat (rewrite <- app_comm_cons || rewrite <- app_assoc). cbn [app].
  rewrite parse_value_object.
  unfold JSON.quote at 1. rewrite <- app_comm_cons, skip_ws_cons by done.
  change (34 =? 125) with false. cbv iota.
  change (34 :: (JSON.quote_chars (lit "id") ++ [34]) ++ ?t)
    with (JSON.quote (lit "id") ++ t).
  rewrite parse_members_string. cbn [app].
  rewrite skip_ws_cons by done.
  change (44 =? 44) with true. cbv iota.
  rewrite parse_members_string. cbn [app].
  rewrite skip_ws_cons by done.
  change (44 =? 44) with true. cbv iota.
  rewrite parse_members_string. cbn [app].
  rewrite skip_ws_cons by done.
  change (125 =? 44) with false. change (125 =? 125) with true. cbv iota.
  reflexivity.
Qed.

Lemma length_stringify_User u :
  (5 ≤ JSON.enough_fuel (JSON.stringify (Auth.User_value u)))%nat.
Proof.
  rewrite stringify_User. unfold JSON.enough_fuel, JSON.quote.
  cbn [length app]. lia.
Qed.

(** [JSON.parse(JSON.stringify(u))] is the object [u]. *)
Lemma parse_stringify_User u :
  JSON.parse (JSON.stringify (Auth.User_value u)) = Some (Auth.User_value u).
Proof.
  unfold JSON.parse.
  pose proof (length_stringify_User u) as Hfuel.
  destruct (JSON.enough_fuel _) as [|[|[|[|[|n]]]]]; try lia.
  pose proof (parse_value_User n u []) as H.
  rewrite app_nil_r in H.
  replace (JSON.skip_ws (JSON.stringify (Auth.User_value u)))
    with (JSON.stringify (Auth.User_value u))
    by (rewrite stringify_User; by rewrite skip_ws_cons).
  change (S (S (S (S (S n))))) with (5 + n)%nat.
  by rewrite H.
Qed.

End JSONFacts.

(** ** The session store *)

Module AuthFacts.
Import Auth.

Ltac exec := unfold mount, restore, login, logout, created, JSON_parse, try_catch,
  setUser, getItem, setItem, removeItem, console_write, throw, ret,
  mbind, M_bind, bind; cbn [user localStorage console fst snd].

Lemma login_run u st :
  login u st
  = ({| user := User_value u;
        localStorage := <[KEY := JSON.stringify (User_value u)]> (localStorage st);
        console := console st ++ [(log, "✅ User logged in and saved to localStorage"%string)] |},
     Return tt).
Proof. reflexivity. Qed.

Lemma logout_run st :
  logout st
  = ({| user := JSON.Null;
        localStorage := delete KEY (localStorage st);
        console := console st ++ [(log, "✅ User logged out and removed from localStorage"%string)] |},
     Return tt).
Proof. reflexivity. Qed.

Lemma mount_absent storage :
  storage !! KEY = None → mount storage = (created storage, Return tt).
Proof. intros H. exec. by rewrite H. Qed.

Lemma mount_empty storage :
  storage !! KEY = Some [] → mount storage = (created storage, Return tt).
Proof. intros H. exec. by rewrite H. Qed.

Lemma mount_parseable storage text v :
  storage !! KEY = Some text → text ≠ [] → JSON.parse text = Some v →
  mount storage
  = ({| user := v; localStorage := storage;
        console := [(log, "✅ User restored from localStorage"%string)] |},
     Return tt).
Proof.
  intros H Hne Hv. exec. rewrite H. destruct text; [done|].
  cbn [truthy]. by rewrite Hv.
Qed.

Lemma mount_corrupt storage text :
  storage !! KEY = Some text → text ≠ [] → JSON.parse text = None →
  mount storage
  = ({| user := JSON.Null; localStorage := delete KEY storage;
        console := [(error, "Failed to parse saved user:"%string)] |},
     Return tt).
Proof.
  intros H Hne Hv. exec. rewrite H. destruct text; [done|].
  cbn [truthy]. by rewrite Hv.
Qed.

Lemma stringify_User_nonempty u : JSON.stringify (User_value u) ≠ [].
Proof. by rewrite JSONFacts.stringify_User. Qed.

Lemma User_value_inj u1 u2 : User_value u1 = User_value u2 → u1 = u2.
Proof. destruct u1, u2. unfold User_value. simpl. intros; by simplify_eq. Qed.

Lemma persisted_delete storage : persisted (delete KEY storage) = JSON.Null.
Proof. unfold persisted. by rewrite lookup_delete_eq. Qed.

Lemma persisted_insert_User u storage :
  persisted (<[KEY := JSON.stringify (User_value u)]> storage) = User_value u.
Proof.
  unfold persisted. by rewrite lookup_insert_eq, JSONFacts.parse_stringify_User.
Qed.

Lemma mount_consistent storage : consistent (fst (mount storage)).
Proof.
  unfold consistent.
  destruct (storage !! KEY) as [text|] eqn:Hslot.
  - destruct (decide (text = [])) as [->|Hne].
    + rewrite mount_empty by done. unfold persisted. simpl. by rewrite Hslot.
    + destruct (JSON.parse text) as [v|] eqn:Hv.
      * erewrite mount_parseable by done. unfold persisted. simpl.
        by rewrite Hslot, Hv.
      * erewrite mount_corrupt by done. simpl. by rewrite persisted_delete.
  - rewrite mount_absent by done. unfold persisted. simpl. by rewrite Hslot.
Qed.

Lemma mount_returns storage : snd (mount storage) = Return tt.
Proof.
  destruct (storage !! KEY) as [text|] eqn:Hslot.
  - destruct (decide (text = [])) as [->|Hne].
    + by rewrite mount_empty.
    + destruct (JSON.parse text) as [v|] eqn:Hv.
      * by erewrite mount_parseable.
      * by erewrite mount_corrupt.
  - by rewrite mount_absent.
Qed.

Lemma step_consistent o st : consistent (step o st).
Proof.
  destruct o as [u| |]; cbn [step].
  - rewrite login_run. unfold consistent. cbn [fst user localStorage].
    by rewrite persisted_insert_User.
  - rewrite logout_run. unfold consistent. cbn [fst user localStorage].
    by rewrite persisted_delete.
  - apply mount_consistent.
Qed.


(** C3.  A slot whose text does not parse never makes the provider's
    start-up throw and leaves no identity in memory; the slot is deleted
    when the text is not empty, and left as it is when the text is the empty
    string (which the guard [if (savedUser)] takes for no saved user). *)
Theorem mount_unparseable_slot storage text :
  storage !! KEY = Some text →
  JSON.parse text = None →
  ∃ st, mount storage = (st, Return tt) ∧
        user st = JSON.Null ∧
        isAuthenticated st = false ∧
        localStorage st = (if truthy text then delete KEY storage else storage).
Proof.
  intros Hslot Hparse. destruct text as [|c text].
  - rewrite mount_empty by done. by eexists.
  - erewrite mount_corrupt by done. by eexists.
Qed.

Lemma mount_unparseable_slot_witness :
  ∃ st, mount {[ KEY := lit "{oops" ]} = (st, Return tt) ∧
        user st = JSON.Null ∧
        isAuthenticated st = false ∧
        localStorage st = delete KEY {[ KEY := lit "{oops" ]}.
Proof.
  exact (mount_unparseable_slot {[ KEY := lit "{oops" ]} (lit "{oops")
           eq_refl eq_refl).
Defined.

(** C3, as the claim states it, fails on the empty string: it does not
    parse, yet start-up leaves the slot in place. *)
Lemma mount_empty_slot_not_deleted :
  JSON.parse [] = None ∧
  snd (mount {[ KEY := [] ]}) = Return tt ∧
  user (fst (mount {[ KEY := [] ]})) = JSON.Null ∧
  localStorage (fst (mount {[ KEY := [] ]})) !! KEY = Some [] ∧
  localStorage (fst (mount {[ KEY := [] ]})) !! KEY ≠ None.
Proof. by vm_compute. Qed.

(** C4.  After [login(u)], a new provider mounted over the storage the old
    one left has [u] as its user, with no call to [login]: what [login]
    wrote parses back to [u]. *)
Theorem login_then_restart_restores u st :
  JSON.parse (JSON.stringify (User_value u)) = Some (User_value u) ∧
  snd (mount (localStorage (fst (login u st)))) = Return tt ∧
  user (fst (mount (localStorage (fst (login u st))))) = User_value u ∧
  isAuthenticated (fst (mount (localStorage (fst (login u st))))) = true ∧
  localStorage (fst (mount (localStorage (fst (login u st)))))
  = localStorage (fst (login u st)).
Proof.
  pose proof (JSONFacts.parse_stringify_User u) as Hrt.
  rewrite login_run. cbn [fst localStorage].
  erewrite mount_parseable;
    [ | apply lookup_insert_eq | apply stringify_User_nonempty | exact Hrt ].
  done.
Qed.

(** The slot is as the store writes it: missing, or the serialization of
    a [User].  Every operation keeps it so and leaves the memory mirrored. *)
Lemma step_mirrored o st :
  (localStorage st !! KEY = None ∨
   ∃ u, localStorage st !! KEY = Some (JSON.stringify (User_value u))) →
  mirrored (step o st) ∧
  (localStorage (step o st) !! KEY = None ∨
   ∃ u, localStorage (step o st) !! KEY = Some (JSON.stringify (User_value u))).
Proof.
  intros Hslot. unfold mirrored. destruct o as [u| |]; cbn [step].
  - rewrite login_run. cbn [fst user localStorage]. rewrite lookup_insert_eq.
    split; [|right]; by exists u.
  - rewrite logout_run. cbn [fst user localStorage]. rewrite lookup_delete_eq.
    by split; [|left].
  - destruct Hslot as [Hnone|[u Hu]].
    + rewrite mount_absent by done. cbn [fst created user localStorage].
      rewrite Hnone. by split; [|left].
    + erewrite mount_parseable;
        [ | done | apply stringify_User_nonempty | apply JSONFacts.parse_stringify_User ].
      cbn [fst user localStorage]. rewrite Hu. split; [|right]; by exists u.
Qed.

Lemma run_mirrored ops o : mirrored (step o (run ops (created ∅))).
Proof.
  apply step_mirrored. unfold run.
  assert (H : localStorage (created ∅) !! KEY = None ∨
              ∃ u, localStorage (created ∅) !! KEY
                   = Some (JSON.stringify (User_value u))) by (by left).
  revert H. generalize (created ∅).
  induction ops as [|o' ops IH]; intros st H; [done|].
  cbn [foldl]. by apply IH, step_mirrored.
Qed.

(** C5.  After [login], after [logout] and after start-up, from any state,
    the user in memory is the identity the slot stands for; in every state
    the store itself reaches from an empty storage the slot mirrors the
    memory; [login] and [logout] write both in one call, which returns
    normally. *)
Theorem memory_and_slot_agree :
  (∀ o st, consistent (step o st)) ∧
  (∀ ops o, mirrored (step o (run ops (created ∅)))) ∧
  (∀ u st, snd (login u st) = Return tt ∧
           user (fst (login u st)) = User_value u ∧
           localStorage (fst (login u st)) !! KEY
           = Some (JSON.stringify (User_value u))) ∧
  (∀ st, snd (logout st) = Return tt ∧
         user (fst (logout st)) = JSON.Null ∧
         localStorage (fst (logout st)) !! KEY = None) ∧
  (∀ storage, snd (mount storage) = Return tt).
Proof.
  split_and!.
  - apply step_consistent.
  - apply run_mirrored.
  - intros u st. rewrite login_run. cbn [fst snd user localStorage].
    by rewrite lookup_insert_eq.
  - intros st. rewrite logout_run. cbn [fst snd user localStorage].
    by rewrite lookup_delete_eq.
  - apply mount_returns.
Qed.

(** C7.  After [login(u)] the user is [u], [isAuthenticated] is true and
    the slot holds the serialized [u] under the fixed key; in every state
    [isAuthenticated] is true exactly when the user is not [null], also as
    a consumer reads the two through the context. *)
Theorem login_sets_user_and_slot u st :
  user (fst (login u st)) = User_value u ∧
  isAuthenticated (fst (login u st)) = true ∧
  localStorage (fst (login u st)) !! lit "wasteless_user"
  = Some (JSON.stringify (User_value u)) ∧
  (∀ st', isAuthenticated st' = true ↔ user st' ≠ JSON.Null) ∧
  (∀ st', ctx_isAuthenticated (value st') = true ↔ ctx_user (value st') ≠ JSON.Null).
Proof.
  rewrite login_run. cbn [fst user localStorage].
  split_and!; try done.
  - apply lookup_insert_eq.
  - intros st'. unfold isAuthenticated. by destruct (user st'); split.
  - intros st'. unfold value, isAuthenticated. cbn [ctx_user ctx_isAuthenticated].
    by destruct (user st'); split.
Qed.

End AuthFacts.

(** ** The notification store *)

Module UIFacts.
Import UI.

Lemma toasts_removeToast i st :
  toasts (removeToast i st) = filter (λ toast, id toast ≠ i) (toasts st).
Proof. reflexivity. Qed.

Lemma removeToast_absent i st :
  Forall (λ toast, id toast ≠ i) (toasts st) → removeToast i st = st.
Proof.
  intros H. destruct st as [l ts n tm]. unfold removeToast, setToasts. simpl in *.
  f_equal. induction H as [|t ts' Ht _ IH]; [done|].
  rewrite filter_cons_True by done. by rewrite IH.
Qed.

Lemma removeToast_clears i st :
  Forall (λ toast, id toast ≠ i) (toasts (removeToast i st)).
Proof.
  rewrite toasts_removeToast. apply Forall_forall. intros t Ht.
  by apply list_elem_of_filter in Ht as [? _].
Qed.

Lemma removeToast_idempotent i st :
  removeToast i (removeToast i st) = removeToast i st.
Proof. apply removeToast_absent, removeToast_clears. Qed.

(** The callbacks of a batch of timers, run in order, remove exactly the
    toasts whose id one of them names, and touch nothing else. *)
Lemma run_callbacks tms st :
  foldl (λ s t, removeToast (target t) s) st tms
  = {| isLoading := isLoading st;
       toasts := filter (λ toast, id toast ∉ target <$> tms) (toasts st);
       now := now st;
       timers := timers st |}.
Proof.
  revert st. induction tms as [|tm tms IH]; intros st.
  - destruct st as [l ts n tm]. simpl. f_equal.
    induction ts as [|t ts IHts]; [done|].
    rewrite filter_cons_True; [by rewrite <- IHts|apply not_elem_of_nil].
  - cbn [foldl]. rewrite IH. unfold removeToast, setToasts.
    cbn [isLoading toasts now timers]. f_equal.
    rewrite list_filter_filter. apply list_filter_iff. intros t.
    rewrite fmap_cons, not_elem_of_cons. tauto.
Qed.

Lemma elapse_run dt st :
  elapse dt st
  = {| isLoading := isLoading st;
       toasts := filter (λ toast, id toast ∉
                   target <$> filter (λ t, (due t ≤ now st + Z.of_N dt)%Z) (timers st))
                   (toasts st);
       now := (now st + Z.of_N dt)%Z;
       timers := filter (λ t, ¬ (due t ≤ now st + Z.of_N dt)%Z) (timers st) |}.
Proof. unfold elapse. by rewrite run_callbacks. Qed.

Lemma showToast_run m ty st :
  showToast m ty st
  = ({| isLoading := isLoading st;
        toasts := toasts st ++ [ {| id := Number_toString (now st); message := m;
                                    type := default info ty |} ];
        now := now st;
        timers := timers st ++ [ {| due := now st + 3000;
                                    target := Number_toString (now st) |} ] |},
     None).
Proof. by destruct ty. Qed.

Lemma filter_all {A} (P : A → Prop) `{!∀ x, Decision (P x)} (l : list A) :
  Forall P l → filter P l = l.
Proof.
  induction 1 as [|x l Hx _ IH]; [done|].
  rewrite filter_cons_True by done. by rewrite IH.
Qed.

Lemma filter_sublist_mono {A} (P : A → Prop) `{!∀ x, Decision (P x)} (l k : list A) :
  l `sublist_of` k → filter P l `sublist_of` filter P k.
Proof.
  induction 1 as [|x l k _ IH|x l k _ IH]; [done| |].
  - destruct (decide (P x)).
    + rewrite !filter_cons_True by done. by constructor.
    + by rewrite !filter_cons_False.
  - destruct (decide (P x)).
    + rewrite filter_cons_True by done. by constructor.
    + by rewrite filter_cons_False.
Qed.

(** The toasts and the timers after a run of [showToast] calls in one tick:
    one toast and one timer for each call, in call order, all of them with
    the id made from the one clock reading. *)
Lemma showToasts_run calls st :
  showToasts calls st
  = {| isLoading := isLoading st;
       toasts := toasts st ++
                 ((λ call, {| id := Number_toString (now st); message := fst call;
                              type := default info (snd call) |}) <$> calls);
       now := now st;
       timers := timers st ++
                 ((λ _, {| due := now st + 3000;
                           target := Number_toString (now st) |}) <$> calls) |}.
Proof.
  unfold showToasts. revert st. induction calls as [|call calls IH]; intros st.
  - destruct st. simpl. by rewrite !app_nil_r.
  - cbn [foldl]. rewrite IH, showToast_run.
    cbn [fst isLoading toasts now timers fmap list_fmap].
    by rewrite <- !app_assoc.
Qed.

(** C6.  [removeToast(id)] on a sequence with no toast of that id leaves
    the state as it is; a second [removeToast(id)] changes nothing after the
    first; and when time passes and no toast carries the id of a timer that
    falls due, the toasts stay as they are. *)
Theorem removeToast_idempotent_noop i st :
  (Forall (λ toast, id toast ≠ i) (toasts st) → removeToast i st = st) ∧
  removeToast i (removeToast i st) = removeToast i st ∧
  length (toasts (removeToast i (removeToast i st)))
  = length (toasts (removeToast i st)) ∧
  (∀ dt,
     (∀ toast tm, toast ∈ toasts st → tm ∈ timers st →
                  (due tm ≤ now st + Z.of_N dt)%Z → id toast ≠ target tm) →
     toasts (elapse dt st) = toasts st).
Proof.
  split_and!.
  - apply removeToast_absent.
  - apply removeToast_idempotent.
  - by rewrite removeToast_idempotent.
  - intros dt H. rewrite elapse_run. cbn [toasts]. apply filter_all.
    apply Forall_forall. intros toast Htoast Hin.
    apply list_elem_of_fmap in Hin as (tm & Heq & Htm).
    apply list_elem_of_filter in Htm as [Hdue Htm].
    by apply (H toast tm).
Qed.

Lemma removeToast_idempotent_noop_witness :
  removeToast (lit "999") sample = sample ∧
  toasts (elapse 3000 (removeToast (lit "1000") (removeToast (lit "1005") sample))) = [].
Proof.
  split.
  - refine (proj1 (removeToast_idempotent_noop (lit "999") sample) _).
    apply (bool_decide_unpack _). by vm_compute.
  - refine (proj2 (proj2 (proj2 (removeToast_idempotent_noop (lit "999")
              (removeToast (lit "1000") (removeToast (lit "1005") sample))))) 3000 _).
    intros toast tm Htoast. vm_compute in Htoast. by apply elem_of_nil in Htoast.
Defined.

(** C9.  [removeToast(id)] leaves no toast with that id, however many
    there were; what is left is the longest part of the old sequence without
    that id, in the old order and with each toast as it was; the loading
    flag, the clock and the timers are untouched. *)
Theorem removeToast_removes_every_match i st :
  Forall (λ toast, id toast ≠ i) (toasts (removeToast i st)) ∧
  toasts (removeToast i st) `sublist_of` toasts st ∧
  (∀ l, l `sublist_of` toasts st → Forall (λ toast, id toast ≠ i) l →
        l `sublist_of` toasts (removeToast i st)) ∧
  (∀ toast, toast ∈ toasts (removeToast i st) ↔ toast ∈ toasts st ∧ id toast ≠ i) ∧
  (∀ before after,
     toasts st = before ++ after →
     toasts (removeToast i st)
     = filter (λ toast, id toast ≠ i) before ++ filter (λ toast, id toast ≠ i) after) ∧
  isLoading (removeToast i st) = isLoading st ∧
  now (removeToast i st) = now st ∧
  timers (removeToast i st) = timers st.
Proof.
  split_and!; try done.
  - apply removeToast_clears.
  - apply sublist_filter.
  - intros l Hl Hall. rewrite toasts_removeToast.
    rewrite <- (filter_all _ l Hall). by apply filter_sublist_mono.
  - intros toast. rewrite toasts_removeToast, list_elem_of_filter. tauto.
  - intros before after H. by rewrite toasts_removeToast, H, filter_app.
Qed.

Lemma removeToast_removes_every_match_witness :
  toasts (removeToast (lit "1000") sample)
  = [ {| id := lit "1005"; message := lit ""; type := warning |} ].
Proof.
  pose proof (removeToast_removes_every_match (lit "1000") sample) as (_ & _ & _ & _ & H & _).
  exact (H [] (toasts sample) eq_refl).
Defined.

(** C10.  [showToast] takes any message, the empty string included, and
    appends a toast with exactly that message; without a type the toast is
    an [info] toast. *)
Theorem showToast_accepts_any_message m ty st :
  toasts (fst (showToast m ty st))
  = toasts st ++ [ {| id := Number_toString (now st); message := m;
                      type := default info ty |} ] ∧
  toasts (fst (showToast [] ty st))
  = toasts st ++ [ {| id := Number_toString (now st); message := [];
                      type := default info ty |} ] ∧
  toasts (fst (showToast m None st))
  = toasts st ++ [ {| id := Number_toString (now st); message := m;
                      type := info |} ].
Proof. by rewrite !showToast_run. Qed.

(** *** Timers *)

Lemma step_timers_wf e st : timers_wf st → timers_wf (step e st).
Proof.
  unfold timers_wf. intros H. destruct e as [m ty|i|b|dt]; cbn [step].
  - rewrite showToast_run. cbn [fst timers now].
    apply Forall_app. split; [done|]. apply Forall_singleton. cbn [due target].
    split; [f_equal; lia|lia].
  - done.
  - done.
  - rewrite elapse_run. cbn [timers now].
    apply Forall_forall. intros tm Htm.
    apply list_elem_of_filter in Htm as [_ Htm].
    rewrite Forall_forall in H. destruct (H tm Htm) as [? ?]. split; [done|lia].
Qed.

Lemma run_timers_wf events clock : timers_wf (run events (initial clock)).
Proof.
  unfold run.
  assert (timers_wf (initial clock)) as H by apply Forall_nil_2.
  revert H. generalize (initial clock).
  induction events as [|e events IH]; intros st H; [done|].
  cbn [foldl]. by apply IH, step_timers_wf.
Qed.

(** C1.  Two [showToast] calls in one tick both add their toast, in call
    order, but with one and the same id, so that removing either toast
    removes the other too. *)
Theorem showToast_same_tick_same_id m1 ty1 m2 ty2 st :
  ∃ t1 t2,
    toasts (showToasts [(m1, ty1); (m2, ty2)] st) = toasts st ++ [t1; t2] ∧
    message t1 = m1 ∧ message t2 = m2 ∧
    id t1 = id t2 ∧
    toasts (removeToast (id t1) (showToasts [(m1, ty1); (m2, ty2)] st))
    = toasts (removeToast (id t1) st).
Proof.
  rewrite showToasts_run. cbn [toasts fmap list_fmap fst snd].
  eexists _, _. split; [reflexivity|]. cbn [message id].
  split_and!; try done.
  rewrite !toasts_removeToast. cbn [toasts].
  rewrite filter_app, !filter_cons_False, filter_nil, app_nil_r; by try intros [].
Qed.

Example showToast_same_tick_example :
  toasts (showToasts [(lit "saved", Some success); (lit "failed", Some error)]
                     (initial 1700000000000))
  = [ {| id := lit "1700000000000"; message := lit "saved"; type := success |};
      {| id := lit "1700000000000"; message := lit "failed"; type := error |} ].
Proof. reflexivity. Qed.

(** Toasts made at different clock readings have different ids. *)
Lemma showToast_other_tick_other_id m1 ty1 m2 ty2 st1 st2 t1 t2 :
  now st1 ≠ now st2 →
  last (toasts (fst (showToast m1 ty1 st1))) = Some t1 →
  last (toasts (fst (showToast m2 ty2 st2))) = Some t2 →
  id t1 ≠ id t2.
Proof.
  rewrite !showToast_run. cbn [fst toasts]. rewrite !last_snoc.
  intros Hnow [= <-] [= <-]. cbn [id]. by intros ?%Number_toString_inj.
Qed.

(** C2.  [showToast(message, type)] appends exactly one toast, the last of
    the sequence, and sets one timer, due three seconds later, whose
    callback removes the toasts with the new id; the call itself evaluates
    to [undefined].  Once the three seconds have passed no toast with that
    id is left; until then, in a state whose timers [showToast] set, the
    toast is still there. *)
Theorem showToast_appends_and_schedules m ty st :
  let toast := {| id := Number_toString (now st); message := m; type := ty |} in
  let timer := {| due := now st + 3000; target := Number_toString (now st) |} in
  toasts (fst (showToast m (Some ty) st)) = toasts st ++ [toast] ∧
  length (toasts (fst (showToast m (Some ty) st))) = S (length (toasts st)) ∧
  timers (fst (showToast m (Some ty) st)) = timers st ++ [timer] ∧
  snd (showToast m (Some ty) st) = None ∧
  (∀ dt, (3000 ≤ dt)%N →
         Forall (λ t, id t ≠ id toast)
                (toasts (elapse dt (fst (showToast m (Some ty) st)))) ∧
         timer ∉ timers (elapse dt (fst (showToast m (Some ty) st)))) ∧
  (∀ dt, (dt < 3000)%N →
         timer ∈ timers (elapse dt (fst (showToast m (Some ty) st))) ∧
         (timers_wf st → toast ∈ toasts (elapse dt (fst (showToast m (Some ty) st))))).
Proof.
  intros toast timer. rewrite showToast_run. cbn [fst snd toasts timers default].
  split_and!; try done.
  - rewrite length_app. simpl. lia.
  - intros dt Hdt. rewrite elapse_run. cbn [toasts timers now]. split.
    + apply Forall_forall. intros t Ht.
      apply list_elem_of_filter in Ht as [Ht _]. intros Heq. apply Ht.
      rewrite Heq. apply list_elem_of_fmap. exists timer. split; [done|].
      apply list_elem_of_filter. split; [unfold timer; cbn [due]; lia|].
      apply elem_of_app. right. apply list_elem_of_singleton. done.
    + intros Hin. apply list_elem_of_filter in Hin as [Hdue _].
      apply Hdue. unfold timer. cbn [due]. lia.
  - intros dt Hdt. rewrite elapse_run. cbn [toasts timers now]. split.
    + apply list_elem_of_filter. split; [unfold timer; cbn [due]; lia|].
      apply elem_of_app. right. by apply list_elem_of_singleton.
    + intros Hwf. apply list_elem_of_filter. split.
      * intros Hin. apply list_elem_of_fmap in Hin as (tm & Heq & Htm).
        apply list_elem_of_filter in Htm as [Hdue Htm].
        apply elem_of_app in Htm as [Htm|Htm].
        -- unfold timers_wf in Hwf. rewrite Forall_forall in Hwf.
           destruct (Hwf tm Htm) as [Htarget _].
           unfold toast in Heq. cbn [id] in Heq. rewrite Htarget in Heq.
           apply Number_toString_inj in Heq. lia.
        -- apply list_elem_of_singleton in Htm. subst tm.
           unfold timer in Hdue. cbn [due] in Hdue. lia.
      * apply elem_of_app. right. by apply list_elem_of_singleton.
Qed.

Lemma showToast_appends_and_schedules_witness :
  Forall (λ t, id t ≠ lit "1005")
         (toasts (elapse 3000 (fst (showToast (lit "x") (Some success) (initial 1005))))) ∧
  {| id := lit "1005"; message := lit "x"; type := success |}
  ∈ toasts (elapse 2999 (fst (showToast (lit "x") (Some success) (initial 1005)))).
Proof.
  pose proof (showToast_appends_and_schedules (lit "x") success (initial 1005))
    as (_ & _ & _ & _ & Hdue & Hbefore).
  split.
  - apply (Hdue 3000). reflexivity.
  - apply (Hbefore 2999); [reflexivity|]. apply Forall_nil_2.
Defined.

(** C2, as the claim states it, fails on the returned value: the call does
    not give the new id back to its caller. *)
Lemma showToast_returns_no_id :
  toasts (fst (showToast (lit "x") (Some success) (initial 1000)))
  = [ {| id := lit "1000"; message := lit "x"; type := success |} ] ∧
  snd (showToast (lit "x") (Some success) (initial 1000)) = None ∧
  snd (showToast (lit "x") (Some success) (initial 1000)) ≠ Some (lit "1000").
Proof. by split_and!. Qed.

End UIFacts.

(** ** The two hooks *)

Module ContextFacts.

(** C8.  Under no provider [useAuth()] and [useUI()] throw their error and
    return nothing; under a provider they return its value. *)
Theorem hooks_throw_outside_provider :
  Auth.useAuth [] = Throw (Error "useAuth must be used within an AuthProvider") ∧
  UI.useUI [] = Throw (Error "useUI must be used within a UIProvider") ∧
  (∀ context, Auth.useAuth [] ≠ Return context) ∧
  (∀ context, UI.useUI [] ≠ Return context) ∧
  (∀ context outer, Auth.useAuth (context :: outer) = Return context) ∧
  (∀ context outer, UI.useUI (context :: outer) = Return context).
Proof. by split_and!. Qed.

End ContextFacts.

(** ** More on the session store *)

Module AuthMore.
Import Auth AuthFacts.

(** What start-up leaves in the storage: what was there, or that without
    the slot. *)
Lemma mount_storage storage :
  localStorage (fst (mount storage)) = storage ∨
  localStorage (fst (mount storage)) = delete KEY storage.
Proof.
  destruct (storage !! KEY) as [text|] eqn:Hslot.
  - destruct (decide (text = [])) as [->|Hne].
    + rewrite mount_empty by done. by left.
    + destruct (JSON.parse text) as [v|] eqn:Hv.
      * erewrite mount_parseable by done. by left.
      * erewrite mount_corrupt by done. by right.
  - rewrite mount_absent by done. by left.
Qed.

(** X1.  After [logout], from any state, there is no user and no slot, and
    a page loaded afterwards starts with no user, an unchanged storage and
    an empty console: nothing is restored and nothing is reported. *)
Theorem logout_then_restart st :
  snd (logout st) = Return tt ∧
  user (fst (logout st)) = JSON.Null ∧
  isAuthenticated (fst (logout st)) = false ∧
  localStorage (fst (logout st)) = delete KEY (localStorage st) ∧
  mount (localStorage (fst (logout st)))
  = ({| user := JSON.Null; localStorage := delete KEY (localStorage st);
        console := [] |}, Return tt).
Proof.
  rewrite logout_run. cbn [fst snd user localStorage].
  split_and!; try done.
  by rewrite mount_absent by apply lookup_delete_eq.
Qed.

(** X2.  No operation of the store, and no sequence of them, reads or
    writes any entry of the storage other than its own slot. *)
Theorem other_keys_untouched ops st k :
  k ≠ KEY →
  localStorage (run ops st) !! k = localStorage st !! k.
Proof.
  intros Hk. unfold run. revert st.
  induction ops as [|o ops IH]; intros st; [done|].
  cbn [foldl]. rewrite IH. destruct o as [u| |]; cbn [step].
  - rewrite login_run. cbn [fst localStorage]. by rewrite lookup_insert_ne.
  - rewrite logout_run. cbn [fst localStorage]. by rewrite lookup_delete_ne.
  - destruct (mount_storage (localStorage st)) as [-> | ->]; [done|].
    by rewrite lookup_delete_ne.
Qed.

Lemma other_keys_untouched_witness :
  localStorage (run [Login {| id := lit "1"; email := lit "a@b"; name := lit "A" |};
                     Restart; Logout]
                    (created {[ lit "theme" := lit "dark" ]})) !! lit "theme"
  = Some (lit "dark").
Proof.
  exact (other_keys_untouched
           [Login {| id := lit "1"; email := lit "a@b"; name := lit "A" |};
            Restart; Logout]
           (created {[ lit "theme" := lit "dark" ]}) (lit "theme")
           ltac:(discriminate)).
Defined.

(** X3.  Loading the page a second time changes nothing: the user and the
    storage after two start-ups in a row are those after the first, whatever
    the slot held. *)
Theorem restart_twice storage :
  user (fst (mount (localStorage (fst (mount storage)))))
  = user (fst (mount storage)) ∧
  localStorage (fst (mount (localStorage (fst (mount storage)))))
  = localStorage (fst (mount storage)).
Proof.
  destruct (storage !! KEY) as [text|] eqn:Hslot.
  - destruct (decide (text = [])) as [->|Hne].
    + rewrite (mount_empty storage) by done. cbn [fst created localStorage].
      by rewrite mount_empty.
    + destruct (JSON.parse text) as [v|] eqn:Hv.
      * erewrite (mount_parseable storage) by done. cbn [fst user localStorage].
        by erewrite mount_parseable.
      * erewrite (mount_corrupt storage) by done. cbn [fst user localStorage].
        by rewrite mount_absent by apply lookup_delete_eq.
  - rewrite (mount_absent storage) by done. cbn [fst created localStorage].
    by rewrite mount_absent.
Qed.

(** X4.  Start-up does not check what the slot holds: whatever value a
    non-empty text parses to becomes the user as it is, the slot stays, and
    the store counts as authenticated unless that value is [null]. *)
Theorem mount_takes_any_value storage text v :
  storage !! KEY = Some text →
  text ≠ [] →
  JSON.parse text = Some v →
  snd (mount storage) = Return tt ∧
  user (fst (mount storage)) = v ∧
  localStorage (fst (mount storage)) = storage ∧
  (isAuthenticated (fst (mount storage)) = true ↔ v ≠ JSON.Null).
Proof.
  intros Hslot Hne Hv. erewrite mount_parseable by done.
  cbn [fst snd user localStorage]. split_and!; try done.
  unfold isAuthenticated. cbn [user]. by destruct v; split.
Qed.

Lemma mount_takes_any_value_witness :
  user (fst (mount {[ KEY := lit "[42, true]" ]}))
  = JSON.Array [JSON.Number (lit "42"); JSON.Bool true] ∧
  isAuthenticated (fst (mount {[ KEY := lit "[42, true]" ]})) = true.
Proof.
  pose proof (mount_takes_any_value {[ KEY := lit "[42, true]" ]} (lit "[42, true]")
                (JSON.Array [JSON.Number (lit "42"); JSON.Bool true])
                eq_refl ltac:(discriminate) eq_refl) as (_ & Huser & _ & Hauth).
  split; [exact Huser|]. apply Hauth. discriminate.
Defined.

(** X5.  The last write wins: [login] after a [login] leaves the user and
    the storage that the second [login] alone leaves, a page loaded then
    restores the second user, and [logout] after a [login] leaves the
    storage that [logout] alone leaves. *)
Theorem last_write_wins u1 u2 st :
  user (fst (login u2 (fst (login u1 st)))) = user (fst (login u2 st)) ∧
  localStorage (fst (login u2 (fst (login u1 st)))) = localStorage (fst (login u2 st)) ∧
  user (fst (mount (localStorage (fst (login u2 (fst (login u1 st)))))))
  = User_value u2 ∧
  user (fst (logout (fst (login u1 st)))) = JSON.Null ∧
  localStorage (fst (logout (fst (login u1 st)))) = localStorage (fst (logout st)).
Proof.
  rewrite !login_run, !logout_run. cbn [fst user localStorage].
  rewrite insert_insert_eq, delete_insert_eq. split_and!; try done.
  erewrite mount_parseable;
    [ done | apply lookup_insert_eq | apply stringify_User_nonempty
    | apply JSONFacts.parse_stringify_User ].
Qed.

(** X6.  The text [login] writes determines the user: two users with the
    same serialization are the same user. *)
Theorem serialization_injective u1 u2 :
  JSON.stringify (User_value u1) = JSON.stringify (User_value u2) → u1 = u2.
Proof.
  intros H. apply User_value_inj.
  assert (Some (User_value u1) = Some (User_value u2)) as E
    by (by rewrite <- !JSONFacts.parse_stringify_User, H).
  congruence.
Qed.

Lemma serialization_injective_witness :
  {| id := lit "1"; email := [97; 34; 98]; name := [0xD800] |}
  = {| id := lit "1"; email := [97; 34; 98]; name := [55296] |}.
Proof. exact (serialization_injective _ _ eq_refl). Defined.

(** X7.  Start-up writes at most one line on the console, and an error
    line exactly when the slot holds a non-empty text that does not parse;
    [login] and [logout] add one line each, never an error line. *)
Theorem console_lines storage u st :
  (length (console (fst (mount storage))) ≤ 1)%nat ∧
  ((∃ line, (error, line) ∈ console (fst (mount storage))) ↔
   (∃ text, storage !! KEY = Some text ∧ text ≠ [] ∧ JSON.parse text = None)) ∧
  (∃ line, console (fst (login u st)) = console st ++ [(log, line)]) ∧
  (∃ line, console (fst (logout st)) = console st ++ [(log, line)]).
Proof.
  split_and!.
  - destruct (storage !! KEY) as [text|] eqn:Hslot.
    + destruct (decide (text = [])) as [->|Hne].
      * rewrite mount_empty by done. simpl. lia.
      * destruct (JSON.parse text) as [v|] eqn:Hv.
        -- erewrite mount_parseable by done. simpl. lia.
        -- erewrite mount_corrupt by done. simpl. lia.
    + rewrite mount_absent by done. simpl. lia.
  - destruct (storage !! KEY) as [text|] eqn:Hslot.
    + destruct (decide (text = [])) as [->|Hne].
      * rewrite mount_empty by done. cbn [fst created console]. split.
        -- intros [line Hin]. by apply elem_of_nil in Hin.
        -- intros (text & [= <-] & Hne & _). done.
      * destruct (JSON.parse text) as [v|] eqn:Hv.
        -- erewrite mount_parseable by done. cbn [fst console]. split.
           ++ intros [line Hin]. by apply list_elem_of_singleton in Hin.
           ++ intros (text' & [= <-] & _ & Hnone). congruence.
        -- erewrite mount_corrupt by done. cbn [fst console]. split.
           ++ intros _. by exists text.
           ++ intros _. eexists. by apply list_elem_of_singleton.
    + rewrite mount_absent by done. cbn [fst created console]. split.
      * intros [line Hin]. by apply elem_of_nil in Hin.
      * by intros (text & ? & _).
  - rewrite login_run. cbn [fst console]. by eexists.
  - rewrite logout_run. cbn [fst console]. by eexists.
Qed.

(** The state of memory and slot when [current] is logged in, or nobody. *)
Lemma run_current_user ops current st :
  user st = from_option User_value JSON.Null current →
  localStorage st !! KEY = (λ u, JSON.stringify (User_value u)) <$> current →
  user (run ops st)
  = from_option User_value JSON.Null (Timeline.current_user ops current) ∧
  localStorage (run ops st) !! KEY
  = (λ u, JSON.stringify (User_value u)) <$> Timeline.current_user ops current.
Proof.
  unfold run. revert current st.
  induction ops as [|o ops IH]; intros current st Huser Hslot; [done|].
  cbn [foldl]. destruct o as [u| |]; cbn [step Timeline.current_user].
  - apply IH; rewrite login_run; cbn [fst user localStorage]; [done|].
    by rewrite lookup_insert_eq.
  - apply IH; rewrite logout_run; cbn [fst user localStorage]; [done|].
    by rewrite lookup_delete_eq.
  - destruct current as [u|]; cbn [fmap option_fmap option_map from_option] in *.
    + apply IH.
      * erewrite mount_parseable;
          [ done | done | apply stringify_User_nonempty
          | apply JSONFacts.parse_stringify_User ].
      * erewrite mount_parseable;
          [ done | done | apply stringify_User_nonempty
          | apply JSONFacts.parse_stringify_User ].
    + apply IH; by rewrite mount_absent.
Qed.

(** X20.  After any history of logins, logouts and reloads in a browser
    whose storage was empty, the user in memory is the user of the last login
    that no logout follows, and nobody when there is none; reloads never
    change who that is, and the slot holds his serialization or is missing. *)
Theorem user_after_history ops :
  user (run ops (created ∅))
  = from_option User_value JSON.Null (Timeline.current_user ops None) ∧
  isAuthenticated (run ops (created ∅))
  = bool_decide (is_Some (Timeline.current_user ops None)) ∧
  localStorage (run ops (created ∅)) !! KEY
  = (λ u, JSON.stringify (User_value u)) <$> Timeline.current_user ops None.
Proof.
  destruct (run_current_user ops None (created ∅) eq_refl (lookup_empty _))
    as [Huser Hslot].
  split_and!; [done| |done].
  unfold isAuthenticated. rewrite Huser.
  by destruct (Timeline.current_user ops None).
Qed.

End AuthMore.

(** ** More on the notification store *)

Module UIMore.
Import UI UIFacts Timeline.

Lemma filter_comm {A} (P Q : A → Prop) `{!∀ x, Decision (P x)} `{!∀ x, Decision (Q x)}
    (l : list A) :
  filter P (filter Q l) = filter Q (filter P l).
Proof. rewrite !list_filter_filter. apply list_filter_iff. tauto. Qed.

Lemma filter_none {A} (P : A → Prop) `{!∀ x, Decision (P x)} (l : list A) :
  Forall (λ x, ¬ P x) l → filter P l = [].
Proof.
  induction 1 as [|x l Hx _ IH]; [done|]. by rewrite filter_cons_False.
Qed.

Lemma fmap_filter {A B} (f : A → B) (P : B → Prop) `{!∀ y, Decision (P y)}
    (l : list A) :
  f <$> filter (λ x, P (f x)) l = filter P (f <$> l).
Proof.
  induction l as [|x l IH]; [done|]. cbn [fmap list_fmap].
  destruct (decide (P (f x))).
  - rewrite !filter_cons_True by done. cbn [fmap list_fmap] in *. by rewrite IH.
  - by rewrite !filter_cons_False.
Qed.

(** X8.  Dismissals commute with each other and with the passing of time:
    in whatever order clicks on the X buttons and expiry timers happen, the
    state that results is the same. *)
Theorem dismissals_commute i j dt st :
  removeToast i (removeToast j st) = removeToast j (removeToast i st) ∧
  elapse dt (removeToast i st) = removeToast i (elapse dt st).
Proof.
  split.
  - unfold removeToast, setToasts. cbn [isLoading toasts now timers].
    f_equal. apply filter_comm.
  - rewrite !elapse_run. unfold removeToast, setToasts.
    cbn [isLoading toasts now timers]. f_equal. apply filter_comm.
Qed.

(** X9.  Time passing in two stretches is time passing in one: the timers
    that run, the toasts they remove and the timers left are the same. *)
Theorem elapse_elapse a b st :
  elapse b (elapse a st) = elapse (a + b) st.
Proof.
  rewrite !elapse_run. cbn [isLoading toasts now timers]. f_equal.
  - rewrite list_filter_filter. apply list_filter_iff. intros toast.
    rewrite !list_elem_of_fmap. split.
    + intros [H1 H2] (tm & Heq & Htm).
      apply list_elem_of_filter in Htm as [Hdue Htm].
      destruct (decide (due tm ≤ now st + Z.of_N a)%Z).
      * apply H2. exists tm. split; [done|]. by apply list_elem_of_filter.
      * apply H1. exists tm. split; [done|].
        apply list_elem_of_filter. split; [lia|]. by apply list_elem_of_filter.
    + intros H. split.
      * intros (tm & Heq & Htm). apply list_elem_of_filter in Htm as [Hdue Htm].
        apply list_elem_of_filter in Htm as [_ Htm].
        apply H. exists tm. split; [done|]. apply list_elem_of_filter. split; [lia|done].
      * intros (tm & Heq & Htm). apply list_elem_of_filter in Htm as [Hdue Htm].
        apply H. exists tm. split; [done|]. apply list_elem_of_filter. split; [lia|done].
  - lia.
  - rewrite list_filter_filter. apply list_filter_iff. intros tm. lia.
Qed.

(** *** Every toast expires *)

Lemma step_every_toast_has_timer e st :
  every_toast_has_timer st → every_toast_has_timer (step e st).
Proof.
  unfold every_toast_has_timer. intros H. destruct e as [m ty|i|b|dt]; cbn [step].
  - rewrite showToast_run. cbn [fst toasts timers].
    rewrite fmap_app. apply Forall_app. split.
    + eapply Forall_impl; [exact H|]. intros toast Hin. apply elem_of_app. by left.
    + apply Forall_singleton. cbn [id]. apply elem_of_app. right.
      cbn [fmap list_fmap target]. by apply list_elem_of_singleton.
  - rewrite toasts_removeToast. cbn [removeToast setToasts timers].
    rewrite Forall_forall in H. apply Forall_forall. intros toast Hin.
    apply list_elem_of_filter in Hin as [_ Hin]. by apply H.
  - done.
  - rewrite elapse_run. cbn [toasts timers].
    rewrite Forall_forall in H. apply Forall_forall. intros toast Hin.
    apply list_elem_of_filter in Hin as [Hnot Hin].
    apply H in Hin. apply list_elem_of_fmap in Hin as (tm & Heq & Htm).
    apply list_elem_of_fmap. exists tm. split; [done|].
    apply list_elem_of_filter. split; [|done].
    intros Hdue. apply Hnot. apply list_elem_of_fmap. exists tm. split; [done|].
    by apply list_elem_of_filter.
Qed.

Lemma run_every_toast_has_timer events clock :
  every_toast_has_timer (run events (initial clock)).
Proof.
  unfold run.
  assert (every_toast_has_timer (initial clock)) as H by apply Forall_nil_2.
  revert H. generalize (initial clock).
  induction events as [|e events IH]; intros st H; [done|].
  cbn [foldl]. by apply IH, step_every_toast_has_timer.
Qed.

(** In a state whose timers [showToast] set and whose toasts all have a
    timer, three seconds without a new toast clear the screen. *)
Lemma elapse_clears dt st :
  timers_wf st → every_toast_has_timer st → (3000 ≤ dt)%N →
  toasts (elapse dt st) = [] ∧ timers (elapse dt st) = [].
Proof.
  intros Hwf Hcov Hdt.
  unfold timers_wf in Hwf. unfold every_toast_has_timer in Hcov.
  rewrite Forall_forall in Hwf.
  rewrite elapse_run. cbn [toasts timers].
  assert (Hall : filter (λ t, (due t ≤ now st + Z.of_N dt)%Z) (timers st) = timers st).
  { apply filter_all, Forall_forall. intros tm Htm.
    destruct (Hwf tm Htm) as [_ ?]. lia. }
  rewrite Hall. split.
  - apply filter_none. eapply Forall_impl; [exact Hcov|]. intros toast Hin. tauto.
  - apply filter_none, Forall_forall. intros tm Htm.
    destruct (Hwf tm Htm) as [_ ?]. intros Hnot. apply Hnot. lia.
Qed.

(** X10.  No toast stays for ever: whatever has happened to the store
    since it was created, once three seconds pass with nothing else
    happening no toast is on screen and no timer is pending. *)
Theorem every_toast_expires events clock dt :
  (3000 ≤ dt)%N →
  toasts (elapse dt (run events (initial clock))) = [] ∧
  timers (elapse dt (run events (initial clock))) = [].
Proof.
  apply elapse_clears; [apply run_timers_wf|apply run_every_toast_has_timer].
Qed.

Lemma every_toast_expires_witness :
  toasts (elapse 3000
            (run [ShowToast (lit "a") None; Elapse 2999; ShowToast (lit "b") (Some error);
                  RemoveToast (lit "1000")]
                 (initial 1000))) = [].
Proof.
  refine (proj1 (every_toast_expires
            [ShowToast (lit "a") None; Elapse 2999; ShowToast (lit "b") (Some error);
             RemoveToast (lit "1000")] 1000 3000 _)).
  discriminate.
Defined.

(** A toast shown in a state whose timers [showToast] set is on screen
    until its three seconds are over. *)
Lemma shown_toast_stays m ty st dt :
  timers_wf st → (dt < 3000)%N →
  {| id := Number_toString (now st); message := m; type := default info ty |}
  ∈ toasts (elapse dt (fst (showToast m ty st))).
Proof.
  intros Hwf Hdt. rewrite showToast_run, elapse_run. cbn [fst toasts timers now].
  apply list_elem_of_filter. split.
  - cbn [id]. intros Hin. apply list_elem_of_fmap in Hin as (tm & Heq & Htm).
    apply list_elem_of_filter in Htm as [Hdue Htm].
    apply elem_of_app in Htm as [Htm|Htm].
    + unfold timers_wf in Hwf. rewrite Forall_forall in Hwf.
      destruct (Hwf tm Htm) as [Htarget _]. rewrite Htarget in Heq.
      apply Number_toString_inj in Heq. lia.
    + apply list_elem_of_singleton in Htm. subst tm. cbn [due] in Hdue. lia.
  - apply elem_of_app. right. by apply list_elem_of_singleton.
Qed.

(** *** Ids and the clock *)

Lemma StronglySorted_filter {A} (R : relation A) (P : A → Prop)
    `{!∀ x, Decision (P x)} (l : list A) :
  StronglySorted R l → StronglySorted R (filter P l).
Proof.
  induction 1 as [|x l _ IH Hall]; [constructor|].
  destruct (decide (P x)).
  - rewrite filter_cons_True by done. constructor; [done|].
    rewrite Forall_forall in Hall. apply Forall_forall. intros y Hy.
    apply list_elem_of_filter in Hy as [_ Hy]. by apply Hall.
  - by rewrite filter_cons_False.
Qed.

(** Removing toasts by a test on their id, while the clock moves on or
    stays, keeps the list oldest first. *)
Lemma oldest_first_filter clock st st' (P : jsstring → Prop) `{!∀ y, Decision (P y)} :
  toasts st' = filter (λ toast, P (id toast)) (toasts st) →
  (now st ≤ now st')%Z →
  oldest_first clock st → oldest_first clock st'.
Proof.
  intros Htoasts Hnow (times & Hids & Hsorted & Hbound & Hclock).
  exists (filter (λ t, P (Number_toString t)) times).
  rewrite Htoasts, (fmap_filter id P), Hids, <- (fmap_filter Number_toString P).
  split_and!; [done| | |lia].
  - by apply StronglySorted_filter.
  - rewrite Forall_forall in Hbound. apply Forall_forall. intros t Ht.
    apply list_elem_of_filter in Ht as [_ Ht]. specialize (Hbound t Ht). lia.
Qed.

Lemma step_oldest_first clock e st :
  oldest_first clock st → oldest_first clock (step e st).
Proof.
  intros H. destruct e as [m ty|i|b|dt]; cbn [step].
  - destruct H as (times & Hids & Hsorted & Hbound & Hclock).
    rewrite showToast_run. unfold oldest_first. cbn [fst toasts now].
    exists (times ++ [now st]). rewrite !fmap_app, Hids. split_and!.
    + done.
    + apply StronglySorted_app_2; [|done|repeat constructor].
      intros t1 t2 Ht1 Ht2. apply list_elem_of_singleton in Ht2 as ->.
      rewrite Forall_forall in Hbound. specialize (Hbound t1 Ht1). lia.
    + apply Forall_app. split; [done|]. apply Forall_singleton. lia.
    + done.
  - by apply (oldest_first_filter clock st _ (λ y, y ≠ i)).
  - done.
  - apply (oldest_first_filter clock st _
             (λ y, y ∉ target <$> filter (λ t, (due t ≤ now st + Z.of_N dt)%Z)
                                         (timers st))); [|rewrite elapse_run; cbn [now]; lia|done].
    by rewrite elapse_run.
Qed.

(** X11.  The toasts on screen are in the order they were shown in: their
    ids are the decimal readings of the clock at which each was shown, and
    along the list these readings never go down and lie between the reading
    at which the store was created and the present one. *)
Theorem toasts_oldest_first events clock :
  oldest_first clock (run events (initial clock)).
Proof.
  unfold run.
  assert (H : oldest_first clock (initial clock)).
  { exists []. split_and!; [done|constructor|constructor|simpl; lia]. }
  revert H. generalize (initial clock).
  induction events as [|e events IH]; intros st H; [done|].
  cbn [foldl]. by apply IH, step_oldest_first.
Qed.

Lemma ids_fresh_filter shown shown' st st' (P : Toast → Prop) `{!∀ x, Decision (P x)} :
  toasts st' = filter P (toasts st) →
  (now st ≤ now st')%Z →
  (shown' = false → shown = false ∨ (now st < now st')%Z) →
  ids_fresh shown st → ids_fresh shown' st'.
Proof.
  intros Htoasts Hnow Hshown [Hnodup Hall]. unfold ids_fresh. rewrite Htoasts. split.
  - apply (sublist_NoDup _ (id <$> toasts st)); [done|].
    apply fmap_sublist, sublist_filter.
  - rewrite Forall_forall in Hall. apply Forall_forall. intros toast Hin.
    apply list_elem_of_filter in Hin as [_ Hin].
    destruct (Hall toast Hin) as (t & Hid & Hle & Hlt).
    exists t. split_and!; [done|lia|]. intros Hs. destruct (Hshown Hs); [|lia].
    specialize (Hlt ltac:(done)). lia.
Qed.

Lemma run_ids_fresh events shown st :
  ids_fresh shown st →
  one_show_per_tick shown events = true →
  NoDup (id <$> toasts (run events st)).
Proof.
  unfold run. revert shown st.
  induction events as [|e events IH]; intros shown st Hfresh Hspaced.
  { by destruct Hfresh. }
  cbn [foldl]. destruct e as [m ty|i|b|dt]; cbn [step one_show_per_tick] in *.
  - apply andb_true_iff in Hspaced as [Hshown Hspaced].
    apply negb_true_iff in Hshown. subst shown.
    apply (IH true); [|done]. destruct Hfresh as [Hnodup Hall].
    rewrite showToast_run. unfold ids_fresh. cbn [fst toasts now].
    rewrite Forall_forall in Hall. split.
    + rewrite fmap_app. apply NoDup_app. split_and!; [done| |apply NoDup_singleton].
      intros i Hi Hnew. apply list_elem_of_singleton in Hnew. cbn [id] in Hnew.
      apply list_elem_of_fmap in Hi as (toast & -> & Hin).
      destruct (Hall toast Hin) as (t & Hid & _ & Hlt).
      rewrite Hid in Hnew. apply Number_toString_inj in Hnew.
      specialize (Hlt eq_refl). lia.
    + apply Forall_app. split.
      * apply Forall_forall. intros toast Hin.
        destruct (Hall toast Hin) as (t & Hid & Hle & _). exists t. by split_and!.
      * apply Forall_singleton. exists (now st). cbn [id]. split_and!; [done|lia|done].
  - apply (IH shown); [|done].
    by apply (ids_fresh_filter shown shown st _ (λ toast, id toast ≠ i)); [..|left|].
  - by apply (IH shown).
  - apply (IH (if (dt =? 0)%N then shown else false)); [|done].
    apply (ids_fresh_filter shown _ st _
             (λ toast, id toast ∉ target <$> filter (λ t, (due t ≤ now st + Z.of_N dt)%Z)
                                                    (timers st))); [| | |done].
    + by rewrite elapse_run.
    + rewrite elapse_run. cbn [now]. lia.
    + rewrite elapse_run. cbn [now]. destruct (N.eqb_spec dt 0); [by left|right; lia].
Qed.

(** X12.  When at least a millisecond passes between any two [showToast]
    calls, the ids of the toasts on screen are pairwise different, whatever
    else happens in between. *)
Theorem ids_unique_when_spaced events clock :
  one_show_per_tick false events = true →
  NoDup (id <$> toasts (run events (initial clock))).
Proof.
  apply run_ids_fresh. split; [apply NoDup_nil_2|apply Forall_nil_2].
Qed.

Lemma ids_unique_when_spaced_witness :
  NoDup (id <$> toasts (run [ShowToast (lit "a") None; Elapse 1;
                             ShowToast (lit "b") None; SetIsLoading true;
                             Elapse 0; RemoveToast (lit "7"); Elapse 2;
                             ShowToast (lit "c") (Some warning)]
                            (initial 1000))).
Proof.
  exact (ids_unique_when_spaced
           [ShowToast (lit "a") None; Elapse 1;
            ShowToast (lit "b") None; SetIsLoading true;
            Elapse 0; RemoveToast (lit "7"); Elapse 2;
            ShowToast (lit "c") (Some warning)] 1000 eq_refl).
Defined.

End UIMore.

(** ** The toast list on screen *)

Module ToastContainerFacts.
Import UI UIFacts ToastContainer.

Lemma keys_render st : key <$> render (value st) = id <$> toasts st.
Proof.
  unfold render, value. cbn [ctx_toasts]. rewrite <- list_fmap_compose.
  by apply list_fmap_ext.
Qed.

Lemma render_removeToast i st :
  render (value (removeToast i st)) = filter (λ b, key b ≠ i) (render (value st)).
Proof.
  unfold render, value. cbn [ctx_toasts]. rewrite toasts_removeToast.
  induction (toasts st) as [|toast l IH]; [done|].
  cbn [fmap list_fmap]. destruct (decide (id toast ≠ i)).
  - rewrite !filter_cons_True by done. cbn [fmap list_fmap]. by rewrite IH.
  - by rewrite !filter_cons_False.
Qed.

Lemma filter_key_delete (l : list Alert) n a :
  NoDup (key <$> l) → l !! n = Some a →
  filter (λ b, key b ≠ key a) l = delete n l.
Proof.
  revert n. induction l as [|b l IH]; intros n Hnodup Hn; [done|].
  cbn [fmap list_fmap] in Hnodup. apply NoDup_cons in Hnodup as [Hb Hnodup].
  destruct n as [|n]; cbn in Hn.
  - injection Hn as ->. rewrite filter_cons_False by (intros H; by apply H).
    cbn [delete list_delete]. apply UIFacts.filter_all, Forall_forall.
    intros c Hc Heq. apply Hb. rewrite <- Heq. apply list_elem_of_fmap. by exists c.
  - rewrite filter_cons_True.
    + cbn [delete list_delete]. f_equal. by apply IH.
    + intros Heq. apply Hb. rewrite Heq. apply list_elem_of_fmap. exists a.
      split; [done|]. by eapply list_elem_of_lookup_2.
Qed.

(** X13.  The class of an alert: each of the four types has its own class,
    named after it, so that different types never look the same; any other
    string is shown as an info alert. *)
Theorem getAlertClass_classes :
  (∀ t, getAlertClass (type_string t) = lit "alert-" ++ type_string t) ∧
  (∀ t1 t2, getAlertClass (type_string t1) = getAlertClass (type_string t2) → t1 = t2) ∧
  (∀ s, s ≠ lit "success" → s ≠ lit "error" → s ≠ lit "warning" →
        getAlertClass s = lit "alert-info") ∧
  getAlertClass [] = lit "alert-info".
Proof.
  split_and!.
  - by intros [].
  - by intros [] [].
  - intros s H1 H2 H3. unfold getAlertClass. by repeat case_decide.
  - done.
Qed.

Lemma getAlertClass_classes_witness :
  getAlertClass (lit "danger") = lit "alert-info".
Proof.
  pose proof getAlertClass_classes as (_ & _ & H & _).
  apply H; discriminate.
Defined.



(** X15.  When at least a millisecond passes between any two [showToast]
    calls, a click on the X of an alert removes that alert and no other. *)
Theorem click_removes_one_when_spaced events clock n a :
  Timeline.one_show_per_tick false events = true →
  render (value (run events (initial clock))) !! n = Some a →
  render (value (click n (run events (initial clock))))
  = delete n (render (value (run events (initial clock)))).
Proof.
  intros Hspaced Hn.
  assert (Hnodup : NoDup (key <$> render (value (run events (initial clock))))).
  { rewrite keys_render. eapply UIMore.run_ids_fresh; [|exact Hspaced].
    split; [apply NoDup_nil_2|apply Forall_nil_2]. }
  unfold click. rewrite Hn.
  assert (Hkey : onClick a = key a).
  { unfold render in Hn. by apply list_lookup_fmap_Some in Hn as (toast & -> & _). }
  rewrite Hkey, render_removeToast. by apply filter_key_delete.
Qed.

Lemma click_removes_one_when_spaced_witness :
  render (value (click 0 (run [ShowToast (lit "a") None; Elapse 1;
                               ShowToast (lit "b") (Some error)] (initial 1000))))
  = [ alert {| id := lit "1001"; message := lit "b"; type := error |} ].
Proof.
  exact (click_removes_one_when_spaced
           [ShowToast (lit "a") None; Elapse 1; ShowToast (lit "b") (Some error)]
           1000 0 _ eq_refl eq_refl).
Defined.

End ToastContainerFacts.

(** ** The demonstration page *)

Module ContextDummyFacts.
Import ContextDummy.

Lemma handleLogin_run st :
  handleLogin st
  = ({| auth := fst (Auth.login mockUser (auth st));
        ui := fst (UI.showToast (lit "Successfully logged in!") (Some UI.success)
                                (ui st));
        loads := loads st |}, Return tt).
Proof. unfold handleLogin. by rewrite AuthFacts.login_run. Qed.

Lemma handleLogout_run st :
  handleLogout st
  = ({| auth := fst (Auth.logout (auth st));
        ui := fst (UI.showToast (lit "Logged out") (Some UI.info) (ui st));
        loads := loads st |}, Return tt).
Proof. unfold handleLogout. by rewrite AuthFacts.logout_run. Qed.

Lemma mount_after_login u a :
  Auth.mount (Auth.localStorage (fst (Auth.login u a)))
  = ({| Auth.user := Auth.User_value u;
        Auth.localStorage := Auth.localStorage (fst (Auth.login u a));
        Auth.console := [(Auth.log, "✅ User restored from localStorage"%string)] |},
     Return tt).
Proof.
  rewrite AuthFacts.login_run. cbn [fst Auth.localStorage].
  erewrite AuthFacts.mount_parseable;
    [ done | apply lookup_insert_eq | apply AuthFacts.stringify_User_nonempty
    | apply JSONFacts.parse_stringify_User ].
Qed.

(** X16.  The login button: the handler returns normally, the page then
    shows John Doe and his address as logged in, and one success toast has
    been added at the end; after a reload the page still shows him logged in,
    and the toast is gone. *)
Theorem handleLogin_then_reload st clock :
  snd (handleLogin st) = Return tt ∧
  logged_in (page_view (fst (handleLogin st))) = true ∧
  shown_name (page_view (fst (handleLogin st))) = Some (JSON.String (lit "John Doe")) ∧
  shown_email (page_view (fst (handleLogin st)))
  = Some (JSON.String (lit "user@wasteless.com")) ∧
  UI.toasts (ui (fst (handleLogin st)))
  = UI.toasts (ui st)
    ++ [ {| UI.id := Number_toString (UI.now (ui st));
            UI.message := lit "Successfully logged in!"; UI.type := UI.success |} ] ∧
  logged_in (page_view (reload clock (fst (handleLogin st)))) = true ∧
  shown_name (page_view (reload clock (fst (handleLogin st))))
  = Some (JSON.String (lit "John Doe")) ∧
  UI.toasts (ui (reload clock (fst (handleLogin st)))) = [].
Proof.
  rewrite handleLogin_run. unfold reload, page_view. cbn [fst snd auth ui].
  rewrite mount_after_login, AuthFacts.login_run, UIFacts.showToast_run.
  by split_and!.
Qed.

(** X17.  The logout button: the handler returns normally, the page shows
    nobody logged in and no name, the slot is gone and one info toast has
    been added; after a reload the page still shows nobody logged in.  This
    holds also right after a login. *)
Theorem handleLogout_then_reload st clock :
  snd (handleLogout st) = Return tt ∧
  logged_in (page_view (fst (handleLogout st))) = false ∧
  shown_name (page_view (fst (handleLogout st))) = None ∧
  Auth.localStorage (auth (fst (handleLogout st))) !! Auth.KEY = None ∧
  UI.toasts (ui (fst (handleLogout st)))
  = UI.toasts (ui st)
    ++ [ {| UI.id := Number_toString (UI.now (ui st));
            UI.message := lit "Logged out"; UI.type := UI.info |} ] ∧
  logged_in (page_view (reload clock (fst (handleLogout st)))) = false ∧
  logged_in (page_view (reload clock (fst (handleLogout (fst (handleLogin st))))))
  = false.
Proof.
  rewrite !handleLogout_run. unfold reload, page_view. cbn [fst snd auth ui].
  rewrite !AuthFacts.logout_run, UIFacts.showToast_run. cbn [fst Auth.localStorage].
  rewrite !AuthFacts.mount_absent by apply lookup_delete_eq.
  split_and!; try done. apply lookup_delete_eq.
Qed.

(** *** Loading data *)

Lemma ui_elapse_fields dt u :
  UI.isLoading (UI.elapse dt u) = UI.isLoading u ∧
  UI.now (UI.elapse dt u) = (UI.now u + Z.of_N dt)%Z.
Proof. by rewrite UIFacts.elapse_run. Qed.

Lemma callback_fields u :
  UI.isLoading (loadData_callback u) = false ∧
  UI.now (loadData_callback u) = UI.now u.
Proof. unfold loadData_callback. by rewrite UIFacts.showToast_run. Qed.

Lemma handleLoadData_fields st :
  UI.isLoading (ui (handleLoadData st)) = true ∧
  UI.now (ui (handleLoadData st)) = UI.now (ui st) ∧
  loads (handleLoadData st) = loads st ++ [ (UI.now (ui st) + 2000)%Z ] ∧
  auth (handleLoadData st) = auth st.
Proof. unfold handleLoadData. by rewrite UIFacts.showToast_run. Qed.

Lemma run_timers_cons d rest until u :
  run_timers (d :: rest) until u
  = if decide (d ≤ until)%Z then
      run_timers rest until (loadData_callback (UI.elapse (Z.to_N (d - UI.now u)) u))
    else (d :: rest, UI.elapse (Z.to_N (until - UI.now u)) u).
Proof. reflexivity. Qed.

Lemma run_timers_nil until u :
  run_timers [] until u = ([], UI.elapse (Z.to_N (until - UI.now u)) u).
Proof. reflexivity. Qed.

(** X18.  The load button, on a page with no load pending: the overlay
    is up at once and stays up for two seconds, then it goes away and the
    toast that reports the end of the load is shown; that toast stays for
    three seconds, and five seconds after the click no toast is left. *)
Theorem load_data_timing a events clock dt :
  let u0 := UI.run events (UI.initial clock) in
  let st := handleLoadData {| auth := a; ui := u0; loads := [] |} in
  overlay (page_view st) = true ∧
  ((dt < 2000)%N →
   overlay (page_view (elapse dt st)) = true ∧
   loads (elapse dt st) = [ (UI.now u0 + 2000)%Z ]) ∧
  ((2000 ≤ dt)%N →
   overlay (page_view (elapse dt st)) = false ∧ loads (elapse dt st) = []) ∧
  ((2000 ≤ dt)%N → (dt < 5000)%N →
   {| UI.id := Number_toString (UI.now u0 + 2000);
      UI.message := lit "Data loaded successfully!"; UI.type := UI.success |}
   ∈ UI.toasts (ui (elapse dt st))) ∧
  ((5000 ≤ dt)%N → UI.toasts (ui (elapse dt st)) = []).
Proof.
  intros u0 st.
  pose proof (UIFacts.run_timers_wf events clock) as Hwf0.
  pose proof (UIMore.run_every_toast_has_timer events clock) as Hcov0.
  fold u0 in Hwf0, Hcov0.
  set (u1 := UI.step (UI.ShowToast (lit "Loading data...") (Some UI.info))
                     (UI.step (UI.SetIsLoading true) u0)).
  assert (Hst : st = {| auth := a; ui := u1; loads := [ (UI.now u0 + 2000)%Z ] |}).
  { unfold st, handleLoadData, u1. cbn [UI.step auth ui loads app].
    by rewrite UIFacts.showToast_run. }
  assert (Hn1 : UI.now u1 = UI.now u0).
  { unfold u1. cbn [UI.step]. by rewrite UIFacts.showToast_run. }
  assert (Hl1 : UI.isLoading u1 = true).
  { unfold u1. cbn [UI.step]. by rewrite UIFacts.showToast_run. }
  assert (Hwf1 : UI.timers_wf u1) by (by do 2 apply UIFacts.step_timers_wf).
  assert (Hcov1 : Timeline.every_toast_has_timer u1)
    by (by do 2 apply UIMore.step_every_toast_has_timer).
  rewrite Hst. clear Hst st. unfold elapse, page_view, view.
  cbn [overlay loads ui UI.value UI.ctx_isLoading].
  rewrite run_timers_cons, Hn1.
  split_and!.
  - done.
  - intros Hdt. rewrite decide_False by lia. cbn [fst snd].
    by rewrite (proj1 (ui_elapse_fields _ _)).
  - intros Hdt. rewrite decide_True by lia. rewrite run_timers_nil. cbn [fst snd].
    by rewrite (proj1 (ui_elapse_fields _ _)), (proj1 (callback_fields _)).
  - intros Hdt Hdt'. rewrite decide_True by lia. rewrite run_timers_nil. cbn [snd].
    replace (Z.to_N (UI.now u0 + 2000 - UI.now u0)) with 2000%N by lia.
    set (u2 := UI.elapse 2000 u1).
    assert (Hn2 : UI.now u2 = (UI.now u0 + 2000)%Z).
    { unfold u2. rewrite (proj2 (ui_elapse_fields _ _)). lia. }
    assert (Hwf2 : UI.timers_wf (UI.setIsLoading false u2)).
    { apply (UIFacts.step_timers_wf (UI.SetIsLoading false)).
      by apply (UIFacts.step_timers_wf (UI.Elapse 2000)). }
    rewrite (proj2 (callback_fields _)), Hn2.
    replace (Z.to_N (UI.now u0 + Z.of_N dt - (UI.now u0 + 2000))) with (dt - 2000)%N by lia.
    pose proof (UIMore.shown_toast_stays (lit "Data loaded successfully!")
                  (Some UI.success) _ (dt - 2000) Hwf2 ltac:(lia)) as Hin.
    change (UI.now (UI.setIsLoading false u2)) with (UI.now u2) in Hin.
    rewrite Hn2 in Hin. exact Hin.
  - intros Hdt. rewrite decide_True by lia. rewrite run_timers_nil. cbn [snd].
    replace (Z.to_N (UI.now u0 + 2000 - UI.now u0)) with 2000%N by lia.
    set (u2 := UI.elapse 2000 u1).
    assert (Hn2 : UI.now u2 = (UI.now u0 + 2000)%Z).
    { unfold u2. rewrite (proj2 (ui_elapse_fields _ _)). lia. }
    rewrite (proj2 (callback_fields _)), Hn2.
    replace (Z.to_N (UI.now u0 + Z.of_N dt - (UI.now u0 + 2000))) with (dt - 2000)%N by lia.
    apply UIMore.elapse_clears; [| |lia].
    + apply (UIFacts.step_timers_wf (UI.ShowToast _ _)).
      apply (UIFacts.step_timers_wf (UI.SetIsLoading false)).
      by apply (UIFacts.step_timers_wf (UI.Elapse 2000)).
    + apply (UIMore.step_every_toast_has_timer (UI.ShowToast _ _)).
      apply (UIMore.step_every_toast_has_timer (UI.SetIsLoading false)).
      by apply (UIMore.step_every_toast_has_timer (UI.Elapse 2000)).
Qed.

Lemma load_data_timing_witness :
  overlay (page_view
             (elapse 1999 (handleLoadData
                {| auth := Auth.created ∅; ui := UI.run [] (UI.initial 1000);
                   loads := [] |}))) = true ∧
  UI.toasts (ui (elapse 4999 (handleLoadData
                {| auth := Auth.created ∅; ui := UI.run [] (UI.initial 1000);
                   loads := [] |})))
  = [ {| UI.id := lit "3000"; UI.message := lit "Data loaded successfully!";
         UI.type := UI.success |} ] ∧
  UI.toasts (ui (elapse 5000 (handleLoadData
                {| auth := Auth.created ∅; ui := UI.run [] (UI.initial 1000);
                   loads := [] |}))) = [].
Proof.
  split_and!.
  - pose proof (load_data_timing (Auth.created ∅) [] 1000 1999) as (_ & H & _).
    exact (proj1 (H eq_refl)).
  - reflexivity.
  - pose proof (load_data_timing (Auth.created ∅) [] 1000 5000) as (_ & _ & _ & _ & H).
    apply H. discriminate.
Defined.

(** X19.  The loading flag does not count: when the button is clicked a
    second time while the first load is running, the overlay goes away as
    soon as the first load is done, although the second is still pending. *)
Theorem overlay_hidden_while_loading st a b :
  loads st = [] →
  (a < 2000)%N →
  (2000 ≤ a + b)%N →
  (b < 2000)%N →
  overlay (page_view (handleLoadData (elapse a (handleLoadData st)))) = true ∧
  overlay (page_view (elapse b (handleLoadData (elapse a (handleLoadData st))))) = false ∧
  load_button (page_view (elapse b (handleLoadData (elapse a (handleLoadData st)))))
  = lit "Load Data" ∧
  loads (elapse b (handleLoadData (elapse a (handleLoadData st))))
  = [ (UI.now (ui st) + Z.of_N a + 2000)%Z ].
Proof.
  intros Hloads Ha Hab Hb.
  destruct (handleLoadData_fields st) as (Hl1 & Hn1 & Hp1 & _).
  rewrite Hloads in Hp1. cbn [app] in Hp1.
  set (st1 := handleLoadData st) in *.
  assert (H2 : loads (elapse a st1) = [(UI.now (ui st) + 2000)%Z] ∧
               UI.now (ui (elapse a st1)) = (UI.now (ui st) + Z.of_N a)%Z).
  { unfold elapse. cbn [loads ui]. rewrite Hp1, run_timers_cons.
    rewrite decide_False by lia. cbn [fst snd].
    split; [done|]. rewrite (proj2 (ui_elapse_fields _ _)). lia. }
  destruct H2 as [Hp2 Hn2].
  set (st2 := elapse a st1) in *.
  destruct (handleLoadData_fields st2) as (Hl3 & Hn3 & Hp3 & _).
  rewrite Hp2, Hn2 in Hp3. cbn [app] in Hp3. rewrite Hn2 in Hn3.
  set (st3 := handleLoadData st2) in *.
  split; [unfold page_view, view; cbn [overlay UI.value UI.ctx_isLoading]; exact Hl3|].
  unfold elapse, page_view, view.
  cbn [overlay load_button loads ui UI.value UI.ctx_isLoading].
  rewrite Hp3, run_timers_cons, decide_True by lia.
  set (u4 := loadData_callback (UI.elapse _ (ui st3))).
  assert (Hn4 : UI.now u4 = (UI.now (ui st) + 2000)%Z).
  { unfold u4. rewrite (proj2 (callback_fields _)), (proj2 (ui_elapse_fields _ _)). lia. }
  rewrite run_timers_cons, decide_False by lia. cbn [fst snd].
  rewrite (proj1 (ui_elapse_fields _ _)). unfold u4.
  rewrite (proj1 (callback_fields _)). done.
Qed.

Lemma overlay_hidden_while_loading_witness :
  overlay (page_view
             (elapse 1500 (handleLoadData (elapse 500
                (handleLoadData {| auth := Auth.created ∅; ui := UI.initial 0;
                                   loads := [] |}))))) = false ∧
  loads (elapse 1500 (handleLoadData (elapse 500
           (handleLoadData {| auth := Auth.created ∅; ui := UI.initial 0;
                              loads := [] |}))))
  = [ 2500%Z ].
Proof.
  pose proof (overlay_hidden_while_loading
                {| auth := Auth.created ∅; ui := UI.initial 0; loads := [] |}
                500 1500 eq_refl eq_refl ltac:(discriminate) eq_refl)
    as (_ & H1 & _ & H2).
  split; [exact H1|exact H2].
Defined.

End ContextDummyFacts.

(** ** The application *)

Module AppFacts.


End AppFacts.
